(** * Phobos: the cached-calls miner ([miner/cached_calls.py])

    A shallow embedding of [CachedCallsMiner]: the derivation of a
    human-readable name from a call record, the lazily built map from
    such names to cache files, and the two read operations
    [contname_iter] and [get_data].

    Python values are an inductive type, exceptions a sum type, and the
    methods run in a state-and-exception monad whose state carries the
    instance attributes together with a trace of the input/output the
    method performed. *)

From Stdlib Require Import ZArith Ascii String List.
From stdpp Require Import base option list strings gmap fin_maps pretty sorting.

Local Open Scope string_scope.
Set Warnings "-register-all".

(** ** Python values and exceptions *)

(** The values that can be keys of a dictionary: numbers, text, and
    tuples of such.  A floating-point number is its 64 bits. *)
Inductive pykey : Type :=
| KNone
| KBool (b : bool)
| KInt (z : Z)
| KFloat (bits : Z)
| KStr (s : string)
| KTuple (items : list pykey).

(** The values a demarshalled cache file is made of.  Tuples and lists
    are kept apart because slicing preserves the kind. *)
Inductive pyval : Type :=
| PNone
| PInt (z : Z)
| PStr (s : string)
| PTuple (items : list pyval)
| PList (items : list pyval)
| PDict (items : list (pykey * pyval))
| PBool (b : bool)
| PFloat (bits : Z).

(** A key as a value, as iterating over a dictionary yields it. *)
Fixpoint key_val (k : pykey) : pyval :=
  match k with
  | KNone => PNone
  | KBool b => PBool b
  | KInt z => PInt z
  | KFloat bits => PFloat bits
  | KStr s => PStr s
  | KTuple items => PTuple (map key_val items)
  end.

(** [k == 0]: the integer zero, [False], and the two floating-point
    zeros, of bits [0] and [2^63]. *)
Definition key_is_zero (k : pykey) : bool :=
  match k with
  | KInt z => Z.eqb z 0
  | KBool b => negb b
  | KFloat bits => Z.eqb bits 0 || Z.eqb bits (2 ^ 63)
  | _ => false
  end.

(** [k == s] for a text [s] *)
Definition key_is_text (s : string) (k : pykey) : bool :=
  match k with
  | KStr t => String.eqb s t
  | _ => false
  end.

(** The value under the first key that passes [test]. *)
Fixpoint dict_find (test : pykey -> bool) (d : list (pykey * pyval)) : option pyval :=
  match d with
  | [] => None
  | (k, v) :: d' => if test k then Some v else dict_find test d'
  end.

Inductive exn : Type :=
| KeyboardInterrupt
| IndexError
| KeyError
| TypeError
| ValueError
| IOError
| ContainerNameError (msg : string)
| OtherError (what : string).

Inductive result (A : Type) : Type :=
| Ok (a : A)
| Raise (e : exn).
Arguments Ok {A} a.
Arguments Raise {A} e.

Definition is_interrupt (e : exn) : bool :=
  match e with KeyboardInterrupt => true | _ => false end.

Definition is_key_error (e : exn) : bool :=
  match e with KeyError => true | _ => false end.

(** [isinstance(v, (tuple, list))] *)
Definition is_sequence (v : pyval) : bool :=
  match v with PTuple _ | PList _ => true | _ => false end.

(** The one-character strings of a string, as iteration yields them. *)
Fixpoint chars (s : string) : list pyval :=
  match s with
  | EmptyString => []
  | String c s' => PStr (String c EmptyString) :: chars s'
  end.

(** [v[0]] *)
Definition getitem0 (v : pyval) : result pyval :=
  match v with
  | PTuple (x :: _) | PList (x :: _) => Ok x
  | PTuple [] | PList [] => Raise IndexError
  | PStr (String c _) => Ok (PStr (String c EmptyString))
  | PStr EmptyString => Raise IndexError
  | PDict d =>
      match dict_find key_is_zero d with Some x => Ok x | None => Raise KeyError end
  | PNone | PInt _ | PBool _ | PFloat _ => Raise TypeError
  end.

(** [v[1:]] *)
Definition slice1 (v : pyval) : result pyval :=
  match v with
  | PTuple l => Ok (PTuple (tail l))
  | PList l => Ok (PList (tail l))
  | PStr (String _ s) => Ok (PStr s)
  | PStr EmptyString => Ok (PStr EmptyString)
  | PDict _ | PNone | PInt _ | PBool _ | PFloat _ => Raise TypeError
  end.

(** [iter(v)], run to the end *)
Definition py_iter (v : pyval) : result (list pyval) :=
  match v with
  | PTuple l | PList l => Ok l
  | PStr s => Ok (chars s)
  | PDict d => Ok (map (fun kv => key_val (fst kv)) d)
  | PNone | PInt _ | PBool _ | PFloat _ => Raise TypeError
  end.

Definition dict_get (k : string) (d : list (pykey * pyval)) : option pyval :=
  dict_find (key_is_text k) d.

(** [v[k]] for a text key [k] *)
Definition getitem_str (v : pyval) (k : string) : result pyval :=
  match v with
  | PDict d => match dict_get k d with Some x => Ok x | None => Raise KeyError end
  | _ => Raise TypeError
  end.

(** [a, b = v] *)
Definition unpack2 (v : pyval) : result (pyval * pyval) :=
  match py_iter v with
  | Ok [a; b] => Ok (a, b)
  | Ok _ => Raise ValueError
  | Raise e => Raise e
  end.

(** ** Text helpers *)

(** [sep.join(parts)] *)
Fixpoint join (sep : string) (parts : list string) : string :=
  match parts with
  | [] => ""
  | [p] => p
  | p :: rest => p +:+ sep +:+ join sep rest
  end.

Definition rparen : ascii := ")"%char.
Definition slash : ascii := "/"%char.
Definition dot : ascii := "."%char.

(** The part of [s] after its last [c], or [None] when [c] is absent:
    [s[s.rfind(c)+1:]] when [rfind] finds something. *)
Fixpoint after_last (c : ascii) (s : string) : option string :=
  match s with
  | EmptyString => None
  | String a s' =>
      match after_last c s' with
      | Some t => Some t
      | None => if Ascii.eqb a c then Some s' else None
      end
  end.

(** The part of [s] before its last [c], or [None] when [c] is absent:
    [s[:s.rfind(c)]]. *)
Fixpoint before_last (c : ascii) (s : string) : option string :=
  match s with
  | EmptyString => None
  | String a s' =>
      match before_last c s' with
      | Some t => Some (String a t)
      | None => if Ascii.eqb a c then Some EmptyString else None
      end
  end.

Fixpoint all_dots (s : string) : bool :=
  match s with
  | EmptyString => true
  | String a s' => Ascii.eqb a dot && all_dots s'
  end.

Fixpoint ends_with_slash (s : string) : bool :=
  match s with
  | EmptyString => false
  | String a EmptyString => Ascii.eqb a slash
  | String _ s' => ends_with_slash s'
  end.

(** [os.path], in its POSIX flavour. *)
Module os_path.

(** [posixpath.join(a, b)] *)
Definition join (a b : string) : string :=
  match b with
  | String c _ =>
      if Ascii.eqb c slash then b
      else if ((String.length a =? 0)%nat || ends_with_slash a)%bool then a +:+ b
      else a +:+ "/" +:+ b
  | EmptyString =>
      if ((String.length a =? 0)%nat || ends_with_slash a)%bool then a
      else a +:+ "/"
  end.

(** [posixpath.basename(p)]: everything after the last slash *)
Definition basename (p : string) : string :=
  match after_last slash p with
  | Some t => t
  | None => p
  end.

(** [posixpath.splitext(p)[0]]: the text before the last dot, when
    that dot comes after the last slash and after a character of the
    last component that is not a dot; the whole of [p] otherwise. *)
Definition splitext_root (p : string) : string :=
  match before_last dot (basename p) with
  | Some root =>
      if all_dots root then p
      else match before_last dot p with Some r => r | None => p end
  | None => p
  end.

End os_path.

(** [os.path.splitext(os.path.basename(filepath))[0]] *)
Definition file_stem (filepath : string) : string :=
  os_path.splitext_root (os_path.basename filepath).

(** ** The instance, its world, and the monad of its methods *)

(** What a method does to the outside world, in order. *)
Inductive event : Type :=
| EGlob (pattern : string)     (* [glob.glob(pattern)] *)
| EOpen (filepath : string)    (* [open(filepath, 'rb')] and [read()] *)
| EPrint (line : string)       (* [print(line)] *)
| EEve (path_eve path_cache server : string).
                               (* [blue.EVE(...)] and its cache manager *)

(** The attributes of a [CachedCallsMiner] and the trace of its
    input/output so far. *)
Record state : Type := {
  path_cachedcalls : string;
  __name_source_map : option (gmap string string);
  trace : list event
}.

Definition log (ev : event) (st : state) : state :=
  {| path_cachedcalls := path_cachedcalls st;
     __name_source_map := __name_source_map st;
     trace := trace st ++ [ev] |}.

Definition set_name_source_map (m : gmap string string) (st : state) : state :=
  {| path_cachedcalls := path_cachedcalls st;
     __name_source_map := Some m;
     trace := trace st |}.

(** The attributes [__init__] sets, given the [machocachepath] of the
    cache manager; the trace of the object starts here. *)
Definition init (machocachepath : string) : state :=
  {| path_cachedcalls := os_path.join machocachepath "CachedMethodCalls";
     __name_source_map := None;
     trace := [] |}.

(** A method: it returns or raises, and leaves a state behind. *)
Definition M (A : Type) : Type := state -> result A * state.

Definition rbind {A B : Type} (r : result A) (k : A -> result B) : result B :=
  match r with
  | Ok a => k a
  | Raise e => Raise e
  end.

Notation "'do' x <- r ; k" := (rbind r (fun x => k))
  (at level 10, x pattern, r at level 100, k at level 200).

(** [__init__].  The library call
    [blue.EVE(path_eve, cachepath=path_cache, server=server).getcachemgr().machocachepath]
    is [blue_EVE]: it gives the path or raises, and what it reads on
    the way is the library's own business, noted as one event.  When
    it raises there is no object. *)
Definition __init__ (blue_EVE : string -> string -> string -> result string)
    (path_eve path_cache server : string) : result state :=
  do machocachepath <- blue_EVE path_eve path_cache server;
  Ok (log (EEve path_eve path_cache server) (init machocachepath)).

(** Intermediate map of the scan, [{safe call name: set(full paths)}].
    The second loop iterates over it, so its order matters: the map is
    the list of its items in insertion order, as a dict iterates, and a
    set is the list of its members in insertion order (Python leaves
    the order of a set open). *)
Abbreviation safecall_map := (list (string * list string)).

Definition set_add (x : string) (s : list string) : list string :=
  if existsb (String.eqb x) s then s else s ++ [x].

(** [safecall_filepath_map.setdefault(safe_call_name, set()).add(filepath)] *)
Fixpoint setdefault_add (safe_call_name filepath : string) (m : safecall_map)
  : safecall_map :=
  match m with
  | [] => [(safe_call_name, [filepath])]
  | (k, filepaths) :: m' =>
      if String.eqb safe_call_name k
      then (k, set_add filepath filepaths) :: m'
      else (k, filepaths) :: setdefault_add safe_call_name filepath m'
  end.

(** [u'{}_{}'.format(safe_call_name, filename)] *)
Definition suffixed (safe_call_name filepath : string) : string :=
  safe_call_name +:+ "_" +:+ file_stem filepath.

(** The body of the second loop of [_name_source_map] for one item. *)
Definition finalize_item (acc : gmap string string) (item : string * list string)
  : gmap string string :=
  let '(safe_call_name, filepaths) := item in
  if (1 <? length filepaths)%nat
  then fold_left (fun acc filepath => <[suffixed safe_call_name filepath := filepath]> acc)
                 filepaths acc
  else fold_left (fun acc filepath => <[safe_call_name := filepath]> acc)
                 filepaths acc.

(** The second loop: [{modified call name: path to source file}]. *)
Definition finalize (safecall_filepath_map : safecall_map) : gmap string string :=
  fold_left finalize_item safecall_filepath_map ∅.

(** [sorted(names)], by insertion *)
Fixpoint insert_sorted (x : string) (l : list string) : list string :=
  match l with
  | [] => [x]
  | y :: l' => if String.leb x y then x :: l else y :: insert_sorted x l'
  end.

Definition sorted (l : list string) : list string :=
  fold_right insert_sorted [] l.

Definition dquote : string := String (ascii_of_nat 34) EmptyString.

(** [u'container "{}" is not available for miner {}'.format(name, type(self).__name__)] *)
Definition unavailable_msg (modified_call_name : string) : string :=
  "container " +:+ dquote +:+ modified_call_name +:+ dquote
  +:+ " is not available for miner CachedCallsMiner".

(** The collaborators the class is written against, and the file
    system, which no method changes. *)
Record collaborators : Type := {
  _secure_name : pyval -> string;              (* [AbstractMiner._secure_name] *)
  EveNormalizer_run : pyval -> result pyval;   (* [EveNormalizer().run] *)
  marshal_Load : string -> result pyval;       (* [blue.marshal.Load] *)
  fs_read : string -> result string;           (* the bytes of a file, or why not *)
  fs_glob : string -> list string              (* [glob.glob] *)
}.

(** The same collaborators over a directory listed in another order. *)
Definition with_glob (g : string -> list string) (E : collaborators) : collaborators :=
  {| _secure_name := _secure_name E;
     EveNormalizer_run := EveNormalizer_run E;
     marshal_Load := marshal_Load E;
     fs_read := fs_read E;
     fs_glob := g |}.

Definition skip_notice (filepath : string) : event :=
  EPrint ("  unable to load cache file " +:+ os_path.basename filepath).

Section Miner.

Variable E : collaborators.

(** What [__read_cache_file] returns or raises for a path. *)
Definition load_result (filepath : string) : result (pyval * pyval) :=
  do filedata <- fs_read E filepath;
  do loaded <- marshal_Load E filedata;
  do (call_info, call_data) <- unpack2 loaded;
  do lret <- getitem_str call_data "lret";
  Ok (call_info, lret).

(** [__read_cache_file] *)
Definition __read_cache_file (filepath : string) : M (pyval * pyval) :=
  fun st => (load_result filepath, log (EOpen filepath) st).

(** Lines 83 to 97: the safe call name of a call info. *)
Definition safe_call_name (call_info : pyval) : result string :=
  do svc_info <- getitem0 call_info;
  do call_info <- slice1 call_info;
  do (svc_name, svc_args) <-
    (if is_sequence svc_info
     then do svc_name <- getitem0 svc_info;
          do svc_args <- slice1 svc_info;
          Ok (_secure_name E svc_name, svc_args)
     else Ok (_secure_name E svc_info, PTuple []));
  do call_name <- getitem0 call_info;
  do call_args <- slice1 call_info;
  do svc_args <- py_iter svc_args;
  do call_args <- py_iter call_args;
  let svc_args_line := join ", " (map (_secure_name E) svc_args) in
  let call_args_line := join ", " (map (_secure_name E) call_args) in
  Ok (svc_name +:+ "(" +:+ svc_args_line +:+ ")_"
      +:+ _secure_name E call_name +:+ "(" +:+ call_args_line +:+ ")").

(** The first loop of [_name_source_map], over the globbed paths. *)
Fixpoint scan (filepaths : list string) (safecall_filepath_map : safecall_map)
  : M safecall_map :=
  fun st =>
    match filepaths with
    | [] => (Ok safecall_filepath_map, st)
    | filepath :: rest =>
        match __read_cache_file filepath st with
        | (Raise e, st) =>
            if is_interrupt e then (Raise e, st)
            else scan rest safecall_filepath_map (log (skip_notice filepath) st)
        | (Ok (call_info, _), st) =>
            match safe_call_name call_info with
            | Raise e => (Raise e, st)
            | Ok name =>
                scan rest (setdefault_add name filepath safecall_filepath_map) st
            end
        end
    end.

Definition glob_pattern (st : state) : string :=
  os_path.join (path_cachedcalls st) "*.cache".

(** The property [_name_source_map]. *)
Definition _name_source_map : M (gmap string string) :=
  fun st =>
    match __name_source_map st with
    | Some m => (Ok m, st)
    | None =>
        let st1 := log (EGlob (glob_pattern st)) st in
        match scan (fs_glob E (glob_pattern st)) [] st1 with
        | (Raise e, st2) => (Raise e, st2)
        | (Ok safecall_filepath_map, st2) =>
            let m := finalize safecall_filepath_map in
            (Ok m, set_name_source_map m st2)
        end
    end.

(** [contname_iter], run to exhaustion *)
Definition contname_iter : M (list string) :=
  fun st =>
    match _name_source_map st with
    | (Raise e, st) => (Raise e, st)
    | (Ok m, st) => (Ok (sorted (map fst (map_to_list m))), st)
    end.

(** [get_data] *)
Definition get_data (modified_call_name : string) : M pyval :=
  fun st =>
    match _name_source_map st with
    | (Raise e, st) =>
        if is_key_error e
        then (Raise (ContainerNameError (unavailable_msg modified_call_name)), st)
        else (Raise e, st)
    | (Ok m, st) =>
        match m !! modified_call_name with
        | None => (Raise (ContainerNameError (unavailable_msg modified_call_name)), st)
        | Some filepath =>
            match __read_cache_file filepath st with
            | (Raise e, st) => (Raise e, st)
            | (Ok (_, call_data), st) => (EveNormalizer_run E call_data, st)
            end
        end
    end.

(** *** The scan, file by file *)

(** What the first loop does with one file. *)
Inductive outcome : Type :=
| Keyed (name : string)   (* loaded and named: joins the map *)
| Skipped (e : exn)       (* the load failed: noticed and skipped *)
| Aborts (e : exn).       (* the loop ends with [e] *)

Definition classify (filepath : string) : outcome :=
  match load_result filepath with
  | Raise e => if is_interrupt e then Aborts e else Skipped e
  | Ok (call_info, _) =>
      match safe_call_name call_info with
      | Ok name => Keyed name
      | Raise e => Aborts e
      end
  end.

Definition benign (filepath : string) : bool :=
  match classify filepath with Aborts _ => false | _ => true end.

(** The files that get a name, with it, in scan order. *)
Fixpoint keyed (filepaths : list string) : list (string * string) :=
  match filepaths with
  | [] => []
  | p :: rest =>
      match classify p with
      | Keyed name => (name, p) :: keyed rest
      | _ => keyed rest
      end
  end.

(** What scanning a list of benign files reads and prints. *)
Fixpoint scan_events (filepaths : list string) : list event :=
  match filepaths with
  | [] => []
  | p :: rest =>
      match classify p with
      | Skipped _ => EOpen p :: skip_notice p :: scan_events rest
      | _ => EOpen p :: scan_events rest
      end
  end.

Definition add_all (entries : list (string * string)) (m : safecall_map) : safecall_map :=
  fold_left (fun m kp => setdefault_add (fst kp) (snd kp) m) entries m.

End Miner.

Definition extend (evs : list event) (st : state) : state :=
  {| path_cachedcalls := path_cachedcalls st;
     __name_source_map := __name_source_map st;
     trace := trace st ++ evs |}.

Fixpoint has_char (c : ascii) (s : string) : bool :=
  match s with
  | EmptyString => false
  | String a s' => Ascii.eqb a c || has_char c s'
  end.

Fixpoint ends_with (c : ascii) (s : string) : bool :=
  match s with
  | EmptyString => false
  | String a EmptyString => Ascii.eqb a c
  | String _ s' => ends_with c s'
  end.

(** File names that the collision suffix tells apart: no two files of
    the list have the same name without extension, and none of these
    names contains a closing parenthesis. *)
Definition plain_stems (filepaths : list string) : Prop :=
  forallb (fun p => negb (has_char rparen (file_stem p))) filepaths = true.

Definition distinct_stems (filepaths : list string) : Prop :=
  List.NoDup (map file_stem filepaths).

(** The name the second loop gives a file of a group. *)
Definition name_for (safe_call_name : string) (filepaths : list string) (filepath : string)
  : string :=
  if (1 <? length filepaths)%nat then suffixed safe_call_name filepath else safe_call_name.

(** All (name, path) assignments of the second loop, in order. *)
Definition assignments (m : safecall_map) : list (string * string) :=
  flat_map (fun item => map (fun p => (name_for (fst item) (snd item) p, p)) (snd item)) m.

(** [safecall_filepath_map.get(name, set())] *)
Fixpoint lookup_group (name : string) (m : safecall_map) : list string :=
  match m with
  | [] => []
  | (k, filepaths) :: m' => if String.eqb name k then filepaths else lookup_group name m'
  end.

(** The paths the first loop gathers under a name, and the name the
    second loop then gives one of them. *)
Definition group (entries : list (string * string)) (name : string) : list string :=
  lookup_group name (add_all entries []).

Definition final_name (entries : list (string * string)) (name filepath : string) : string :=
  name_for name (group entries name) filepath.

(** One assignment [self.__name_source_map[name] = filepath]. *)
Definition assign (acc : gmap string string) (entry : string * string) : gmap string string :=
  <[fst entry := snd entry]> acc.

(** ** The derived key as the specification words it *)

(** The two shapes of a raw record's head. *)
Inductive service : Type :=
| ServiceWithArgs (name : pyval) (args : list pyval)
| ServiceBare (name : pyval).

Definition derived_key (secure : pyval -> string)
    (svc : service) (call_name : pyval) (call_args : list pyval) : string :=
  let service_name := match svc with ServiceWithArgs n _ | ServiceBare n => secure n end in
  let service_args := match svc with ServiceWithArgs _ a => map secure a | ServiceBare _ => [] end in
  service_name +:+ "(" +:+ join ", " service_args +:+ ")" +:+ "_"
  +:+ secure call_name +:+ "(" +:+ join ", " (map secure call_args) +:+ ")".

(** The head of a raw record, read as a service. *)
Definition service_of (head : pyval) : option service :=
  match head with
  | PTuple (n :: a) | PList (n :: a) => Some (ServiceWithArgs n a)
  | PTuple [] | PList [] => None
  | _ => Some (ServiceBare head)
  end.

(** ** The properties the index is specified to have *)

(** Finalization: a name with exactly one file is an entry for that
    file; a name with two or more files has an entry per file under
    the suffixed name, and none under the bare name.  [entries] are
    the (name, path) pairs of the files that were loaded and named. *)
Definition finalization_claim (entries : list (string * string))
    (m : gmap string string) : Prop :=
  forall K,
    (forall p, In (K, p) entries -> (forall q, In (K, q) entries -> q = p) ->
               m !! K = Some p)
    /\ ((exists p q, In (K, p) entries /\ In (K, q) entries /\ p <> q) ->
        (forall p, In (K, p) entries -> m !! suffixed K p = Some p)
        /\ m !! K = None).

(** Coverage: every loaded file is the value of exactly one entry, every
    entry is a loaded file, and no two loaded files get the same name. *)
Definition coverage_claim (entries : list (string * string))
    (m : gmap string string) : Prop :=
  (forall K p, In (K, p) entries ->
     exists n, m !! n = Some p /\ forall n', m !! n' = Some p -> n' = n)
  /\ (forall n p, m !! n = Some p -> exists K, In (K, p) entries)
  /\ (forall K1 p1 K2 p2, In (K1, p1) entries -> In (K2, p2) entries ->
        p1 <> p2 -> final_name entries K1 p1 <> final_name entries K2 p2).

Definition loads (E : collaborators) (filepath : string) : bool :=
  match load_result E filepath with Ok _ => true | Raise _ => false end.

Definition load_fails (E : collaborators) (filepath : string) : bool :=
  match load_result E filepath with Ok _ => false | Raise e => negb (is_interrupt e) end.


(** Lookup of an absent name: it raises [ContainerNameError], does no
    input or output, and leaves the index as it was. *)
Definition lookup_claim (E : collaborators) (st : state) (name : string) : Prop :=
  forall m st1,
    _name_source_map E st = (Ok m, st1) -> m !! name = None ->
    fst (get_data E name st) = Raise (ContainerNameError (unavailable_msg name))
    /\ trace (snd (get_data E name st)) = trace st
    /\ __name_source_map (snd (get_data E name st)) = __name_source_map st.

(** Order: listing the same files in another order builds the same map. *)
Definition order_claim (E : collaborators) (g : string -> list string) (st : state) : Prop :=
  (forall pattern, Permutation (g pattern) (fs_glob E pattern)) ->
  forall m st1, _name_source_map E st = (Ok m, st1) ->
  exists st2, _name_source_map (with_glob g E) st = (Ok m, st2).

(** ** Sequences of accesses *)




Definition is_glob (ev : event) : bool :=
  match ev with EGlob _ => true | _ => false end.

(** How often the directory was listed. *)
Definition globs (tr : list event) : nat := length (List.filter is_glob tr).

Definition names_of (m : gmap string string) : list string :=
  sorted (map fst (map_to_list m)).

(** ** A small cache directory to run the methods on *)

Module Demo.

Definition keeps (c : ascii) : bool :=
  let n := nat_of_ascii c in
  ((48 <=? n) && (n <=? 57) || (65 <=? n) && (n <=? 90) || (97 <=? n) && (n <=? 122)
   || existsb (Ascii.eqb c) ["-"; "."; ","; "("; ")"; " "; "_"]%char)%nat%bool.

Fixpoint scrub (s : string) : string :=
  match s with
  | EmptyString => EmptyString
  | String c s' => String (if keeps c then c else "_"%char) (scrub s')
  end.

(** A secure-name transform: text keeps its letters, digits and
    [-.,() _] and has every other character replaced by [_]; a number
    is written in decimal. *)
Definition secure (v : pyval) : string :=
  match v with
  | PStr s => scrub s
  | PInt z => pretty z
  | _ => "_"
  end.

Definition normalize (v : pyval) : result pyval := Ok v.

Fixpoint assoc {A : Type} (k : string) (l : list (string * A)) : option A :=
  match l with
  | [] => None
  | (k', v) :: l' => if String.eqb k k' then Some v else assoc k l'
  end.

(** A directory listing: file path, and what reading the file gives. *)
Definition read_in (files : list (string * result string)) (filepath : string)
  : result string :=
  match assoc filepath files with
  | Some r => r
  | None => Raise IOError
  end.

(** A toy unmarshaller given by its table. *)
Definition load_from (table : list (string * pyval)) (filedata : string)
  : result pyval :=
  match assoc filedata table with
  | Some v => Ok v
  | None => Raise (OtherError "bad marshal data")
  end.

Definition glob_in (files : list (string * result string)) (pattern : string)
  : list string :=
  if String.eqb pattern "/cache/CachedMethodCalls/*.cache" then map fst files else [].

Definition fresh : state := init "/cache".

Definition cached (call_info : pyval) (lret : pyval) : pyval :=
  PTuple [call_info; PDict [(KStr "lret", lret)]].

Definition table : list (string * pyval) :=
  [ ("svcX-1-callY-z", cached (PTuple [PTuple [PStr "svcX"; PInt 1]; PStr "callY"; PStr "z"]) (PInt 7));
    ("a-b", cached (PTuple [PStr "a"; PStr "b"]) (PInt 1));
    ("a-b-x", cached (PTuple [PStr "a"; PStr "b"; PStr ")_x"]) (PInt 2));
    ("empty", cached (PTuple []) PNone);
    ("headless", cached (PTuple [PTuple []; PStr "c"]) PNone);
    ("no-lret", PTuple [PTuple [PStr "a"; PStr "b"]; PDict []]) ].

Definition dir (name : string) : string := "/cache/CachedMethodCalls/" +:+ name.

(** The scenario of the specification: two files with the same call. *)
Definition twins : list (string * result string) :=
  [ (dir "a.cache", Ok "svcX-1-callY-z"); (dir "b.cache", Ok "svcX-1-callY-z") ].

(** Two files of one call, one of them named [x)], and a third file
    whose call has the argument [)_x]. *)
Definition clash : list (string * result string) :=
  [ (dir "z.cache", Ok "a-b-x"); (dir "x).cache", Ok "a-b"); (dir "y.cache", Ok "a-b") ].

(** One loadable file among a corrupt one and one that cannot be read. *)
Definition mixed : list (string * result string) :=
  [ (dir "bad.cache", Ok "garbage"); (dir "a.cache", Ok "svcX-1-callY-z");
    (dir "gone.cache", Raise IOError); (dir "nolret.cache", Ok "no-lret") ].

(** A file whose record is the empty tuple, after a loadable one. *)
Definition hollow : list (string * result string) :=
  [ (dir "a.cache", Ok "svcX-1-callY-z"); (dir "e.cache", Ok "empty");
    (dir "b.cache", Ok "a-b") ].

(** A file during whose read the user interrupts. *)
Definition interrupted : list (string * result string) :=
  [ (dir "a.cache", Ok "svcX-1-callY-z"); (dir "k.cache", Raise KeyboardInterrupt);
    (dir "b.cache", Ok "a-b") ].

Definition world (files : list (string * result string)) : collaborators :=
  {| _secure_name := secure;
     EveNormalizer_run := normalize;
     marshal_Load := load_from table;
     fs_read := read_in files;
     fs_glob := glob_in files |}.

End Demo.

(** ** Further notions *)

Definition leb_true (a b : string) : Prop := String.leb a b = true.

(** A tuple or list record from which a name can be derived: it has
    a head and a call name, and the head is no empty sequence. *)
Definition decomposes (items : list pyval) : bool :=
  match items with
  | PTuple [] :: _ | PList [] :: _ => false
  | _ :: _ :: _ => true
  | _ => false
  end.

(** A second directory, with records of other shapes. *)
Module Shapes.

Definition table : list (string * pyval) :=
  [ ("good", Demo.cached (PList [PList [PStr "svc"; PStr "x y"]; PStr "call"]) (PStr "payload"));
    ("dict", Demo.cached (PDict [(KStr "svc", PStr "call")]) PNone);
    ("dict0", Demo.cached (PDict [(KFloat 0, PStr "svc")]) PNone);
    ("text", Demo.cached (PStr "ab") PNone);
    ("triple", PTuple [PStr "a"; PStr "b"; PStr "c"]) ].

Definition world (files : list (string * result string)) : collaborators :=
  {| _secure_name := Demo.secure;
     EveNormalizer_run := Demo.normalize;
     marshal_Load := Demo.load_from table;
     fs_read := Demo.read_in files;
     fs_glob := Demo.glob_in files |}.

(** A loadable file, then a file whose record is a dictionary. *)
Definition with_dict : list (string * result string) :=
  [ (Demo.dir "g.cache", Ok "good"); (Demo.dir "d.cache", Ok "dict") ].

(** A loadable file, then a file whose record is a dictionary with
    the floating-point zero for a key. *)
Definition with_zero_key : list (string * result string) :=
  [ (Demo.dir "g.cache", Ok "good"); (Demo.dir "z.cache", Ok "dict0") ].

(** A file that fails to load, a loadable file, and a file during
    whose read the user interrupts. *)
Definition retried : list (string * result string) :=
  [ (Demo.dir "t.cache", Ok "triple"); (Demo.dir "g.cache", Ok "good");
    (Demo.dir "k.cache", Raise KeyboardInterrupt) ].

(** Two loadable files beside a copy that does not load and whose
    name has a closing parenthesis. *)
Definition copies : list (string * result string) :=
  [ (Demo.dir "a (1).cache", Ok "garbage"); (Demo.dir "a.cache", Ok "svcX-1-callY-z");
    (Demo.dir "b.cache", Ok "a-b") ].

End Shapes.

(** The file loads and its record gets the name [name]. *)
Definition named (E : collaborators) (filepath name : string) : Prop :=
  exists call_info lret,
    load_result E filepath = Ok (call_info, lret)
    /\ safe_call_name E call_info = Ok name.

(** The files a trace opens, and the lines it prints, in order. *)
Definition opens (tr : list event) : list string :=
  flat_map (fun ev => match ev with EOpen p => [p] | _ => [] end) tr.

Definition prints (tr : list event) : list string :=
  flat_map (fun ev => match ev with EPrint line => [line] | _ => [] end) tr.

(** ** Proof steps *)

(** One step through a chain of [do] bindings that ended in [Ok]. *)
Ltac step_rbind H :=
  match type of H with
  | rbind ?r _ = Ok _ =>
      let Hr := fresh "Hr" in
      destruct r as [?|?] eqn:Hr; simpl in H; [|discriminate H]
  | (let '(_, _) := ?x in _) = Ok _ => destruct x; simpl in H
  end.

(** A concrete list of file names has no repetition. *)
Ltac solve_distinct :=
  vm_compute; repeat (constructor; [simpl; intuition discriminate|]); constructor.

(** * Facts about the embedding *)

(** ** Text *)

Lemma app_cons c s t : String c s +:+ t = String c (s +:+ t).
Proof. reflexivity. Qed.

Lemma app_assoc' s t u : (s +:+ t) +:+ u = s +:+ (t +:+ u).
Proof.
  induction s as [|c s IH]; [reflexivity|].
  rewrite !app_cons. by rewrite IH.
Qed.

Lemma after_last_absent c s : has_char c s = false -> after_last c s = None.
Proof.
  induction s as [|a s IH]; [done|]. simpl.
  intros [Ha Hs]%orb_false_iff. by rewrite IH, Ha.
Qed.

Lemma before_last_absent c s : has_char c s = false -> before_last c s = None.
Proof.
  induction s as [|a s IH]; [done|]. simpl.
  intros [Ha Hs]%orb_false_iff. by rewrite IH, Ha.
Qed.

Lemma after_last_app c s t :
  has_char c t = false ->
  after_last c (s +:+ t) = (fun r => r +:+ t) <$> after_last c s.
Proof.
  intros Ht. induction s as [|a s IH].
  - change ("" +:+ t) with t. by rewrite after_last_absent.
  - rewrite app_cons. simpl. rewrite IH.
    destruct (after_last c s); simpl; [done|].
    by destruct (Ascii.eqb a c).
Qed.

Lemma before_last_app c s t :
  has_char c t = false -> before_last c (s +:+ t) = before_last c s.
Proof.
  intros Ht. induction s as [|a s IH].
  - change ("" +:+ t) with t. by rewrite before_last_absent.
  - rewrite app_cons. simpl. by rewrite IH.
Qed.

(** A text that ends with [c] splits at that last [c]. *)
Lemma ends_with_split c s :
  ends_with c s = true ->
  exists a, s = a +:+ String c "" /\ after_last c s = Some "" /\ before_last c s = Some a.
Proof.
  induction s as [|x s IH]; [done|].
  destruct s as [|y s'].
  - simpl. intros Hx. exists "". rewrite Hx.
    apply Ascii.eqb_eq in Hx as ->. done.
  - intros H. change (ends_with c (String y s') = true) in H.
    destruct (IH H) as (a & Hs & Ha & Hb).
    exists (String x a). rewrite app_cons, <- Hs.
    split; [done|]. split.
    + change (after_last c (String x (String y s')))
        with (match after_last c (String y s') with
              | Some t => Some t
              | None => if Ascii.eqb x c then Some (String y s') else None
              end).
      by rewrite Ha.
    + change (before_last c (String x (String y s')))
        with (match before_last c (String y s') with
              | Some t => Some (String x t)
              | None => if Ascii.eqb x c then Some EmptyString else None
              end).
      by rewrite Hb.
Qed.

Lemma ends_with_snoc c s : ends_with c (s +:+ String c "") = true.
Proof.
  induction s as [|a s IH].
  - simpl. apply Ascii.eqb_refl.
  - rewrite app_cons. destruct s as [|b s']; [simpl; apply Ascii.eqb_refl|].
    rewrite app_cons in *. exact IH.
Qed.

(** A suffixed name is never a name that ends with a parenthesis,
    when the file name has none. *)
Lemma suffixed_not_bare K1 K2 p :
  ends_with rparen K2 = true ->
  has_char rparen (file_stem p) = false ->
  suffixed K1 p <> K2.
Proof.
  intros HK2 Hp Heq.
  destruct (ends_with_split _ _ HK2) as (a & _ & Hal & _).
  rewrite <- Heq in Hal. unfold suffixed in Hal.
  rewrite after_last_app in Hal.
  - destruct (after_last rparen K1) as [r|]; simpl in Hal; [|done].
    destruct r; discriminate Hal.
  - change (has_char rparen (String "_" (file_stem p)) = false). simpl. exact Hp.
Qed.

(** Two suffixed names agree only on the same name and file name. *)
Lemma suffixed_inj K1 K2 p1 p2 :
  ends_with rparen K1 = true -> ends_with rparen K2 = true ->
  has_char rparen (file_stem p1) = false ->
  has_char rparen (file_stem p2) = false ->
  suffixed K1 p1 = suffixed K2 p2 ->
  K1 = K2 /\ file_stem p1 = file_stem p2.
Proof.
  intros H1 H2 Hp1 Hp2 Heq.
  destruct (ends_with_split _ _ H1) as (a1 & HK1 & Hal1 & Hbl1).
  destruct (ends_with_split _ _ H2) as (a2 & HK2 & Hal2 & Hbl2).
  assert (Ht : forall p, has_char rparen (file_stem p) = false ->
                    has_char rparen ("_" +:+ file_stem p) = false).
  { intros p Hp. change (has_char rparen (String "_" (file_stem p)) = false).
    simpl. exact Hp. }
  pose proof (f_equal (after_last rparen) Heq) as Hal.
  pose proof (f_equal (before_last rparen) Heq) as Hbl.
  unfold suffixed in Hal, Hbl.
  rewrite !after_last_app, Hal1, Hal2 in Hal by auto.
  rewrite !before_last_app, Hbl1, Hbl2 in Hbl by auto.
  simpl in Hal. injection Hal as Hal. injection Hbl as Hbl.
  split; [congruence | exact Hal].
Qed.

(** ** The state *)

Lemma extend_nil st : extend [] st = st.
Proof. destruct st. unfold extend. simpl. by rewrite app_nil_r. Qed.

Lemma extend_extend a b st : extend b (extend a st) = extend (a ++ b) st.
Proof. unfold extend. simpl. by rewrite <- app_assoc. Qed.

Lemma log_extend ev st : log ev st = extend [ev] st.
Proof. reflexivity. Qed.

(** ** The first loop *)

Section Scan.

Variable E : collaborators.

Lemma scan_cons p rest sm st :
  scan E (p :: rest) sm st =
  match classify E p with
  | Keyed name => scan E rest (setdefault_add name p sm) (extend [EOpen p] st)
  | Skipped _ => scan E rest sm (extend [EOpen p; skip_notice p] st)
  | Aborts e => (Raise e, extend [EOpen p] st)
  end.
Proof.
  unfold classify. simpl. unfold __read_cache_file.
  destruct (load_result E p) as [[call_info lret]|e].
  - by destruct (safe_call_name E call_info).
  - destruct (is_interrupt e); [done|].
    by rewrite !log_extend, extend_extend.
Qed.

(** Over files that are loaded or skipped the loop runs to its end. *)
Lemma scan_benign paths sm st :
  forallb (benign E) paths = true ->
  scan E paths sm st = (Ok (add_all (keyed E paths) sm), extend (scan_events E paths) st).
Proof.
  revert sm st. induction paths as [|p rest IH]; intros sm st Hb.
  - simpl. by rewrite extend_nil.
  - apply andb_true_iff in Hb as [Hp Hrest].
    rewrite scan_cons. unfold benign in Hp. simpl.
    destruct (classify E p) as [name|e|e]; [| |done];
      rewrite IH by done; by rewrite extend_extend.
Qed.

(** The loop ends at the first file that is neither. *)
Lemma scan_aborts pre p post e sm st :
  forallb (benign E) pre = true ->
  classify E p = Aborts e ->
  scan E (pre ++ p :: post) sm st
  = (Raise e, extend (scan_events E pre ++ [EOpen p]) st).
Proof.
  revert sm st. induction pre as [|q pre IH]; intros sm st Hb Hp.
  - simpl app. by rewrite scan_cons, Hp.
  - apply andb_true_iff in Hb as [Hq Hpre].
    rewrite <- app_comm_cons.
    rewrite scan_cons. unfold benign in Hq. simpl.
    destruct (classify E q) as [name|e'|e']; [| |done];
      rewrite IH by done; by rewrite extend_extend.
Qed.

(** A loop that ran to its end met no such file. *)
Lemma scan_Ok_benign paths sm st sm' st' :
  scan E paths sm st = (Ok sm', st') -> forallb (benign E) paths = true.
Proof.
  revert sm st. induction paths as [|p rest IH]; intros sm st H; [done|].
  rewrite scan_cons in H. simpl. unfold benign at 1.
  destruct (classify E p); [eauto..|done].
Qed.

Lemma in_keyed K p paths :
  In (K, p) (keyed E paths) <-> In p paths /\ classify E p = Keyed K.
Proof.
  induction paths as [|q rest IH]; simpl; [tauto|].
  destruct (classify E q) as [name|e|e] eqn:Hq; simpl; rewrite IH.
  - split.
    + intros [H|H]; [injection H as <- <-|]; tauto.
    + intros [[->|H] H']; [left; congruence | tauto].
  - split; [tauto|]. intros [[->|H] H']; [congruence | tauto].
  - split; [tauto|]. intros [[->|H] H']; [congruence | tauto].
Qed.

End Scan.

(** ** The intermediate map *)

Lemma set_add_In q p s : In q (set_add p s) <-> In q s \/ q = p.
Proof.
  unfold set_add. destruct (existsb (String.eqb p) s) eqn:Hex.
  - apply existsb_exists in Hex as (x & Hx & ->%String.eqb_eq).
    split; [tauto|]. intros [H| ->]; done.
  - rewrite in_app_iff. simpl. split; intros [H|H]; auto.
    destruct H as [->|[]]; auto.
Qed.

Lemma set_add_NoDup p s : List.NoDup s -> List.NoDup (set_add p s).
Proof.
  intros Hs. unfold set_add. destruct (existsb (String.eqb p) s) eqn:Hex; [done|].
  apply List.NoDup_app; [done | repeat constructor; simpl; tauto |].
  intros x Hx [->|[]].
  assert (existsb (String.eqb x) s = true); [|congruence].
  apply existsb_exists. exists x. split; [done | apply String.eqb_refl].
Qed.

Lemma lookup_setdefault_add K k p sm :
  lookup_group K (setdefault_add k p sm)
  = if String.eqb K k then set_add p (lookup_group k sm) else lookup_group K sm.
Proof.
  induction sm as [|[k0 f0] sm IH]; simpl.
  - by destruct (String.eqb K k).
  - destruct (String.eqb_spec k k0) as [->|Hne]; simpl.
    + by destruct (String.eqb K k0).
    + rewrite IH. destruct (String.eqb_spec K k0) as [->|HK]; [|done].
      by destruct (String.eqb_spec k0 k) as [->|].
Qed.

Lemma keys_setdefault_add K k p sm :
  In K (map fst (setdefault_add k p sm)) <-> In K (map fst sm) \/ K = k.
Proof.
  induction sm as [|[k0 f0] sm IH]; simpl.
  - split; [intros [<-|[]]; auto | intros [[]| ->]; auto].
  - destruct (String.eqb_spec k k0) as [->|Hne]; simpl.
    + split; [tauto|]. intros [H| ->]; auto.
    + rewrite IH. tauto.
Qed.

Lemma keys_setdefault_add_NoDup k p sm :
  List.NoDup (map fst sm) -> List.NoDup (map fst (setdefault_add k p sm)).
Proof.
  induction sm as [|[k0 f0] sm IH]; simpl; intros Hnd.
  - repeat constructor. simpl. tauto.
  - apply List.NoDup_cons_iff in Hnd as [Hk0 Hnd].
    destruct (String.eqb_spec k k0) as [->|Hne]; simpl.
    + by apply List.NoDup_cons.
    + apply List.NoDup_cons; [|auto].
      rewrite keys_setdefault_add. intros [H|H]; [done | congruence].
Qed.

Lemma lookup_group_In K fps sm :
  List.NoDup (map fst sm) -> In (K, fps) sm -> lookup_group K sm = fps.
Proof.
  induction sm as [|[k0 f0] sm IH]; simpl; [done|].
  intros [Hk0 Hnd]%List.NoDup_cons_iff [Heq|Hin].
  - injection Heq as -> ->. by rewrite String.eqb_refl.
  - destruct (String.eqb_spec K k0) as [->|HK]; [|auto].
    destruct Hk0. apply in_map_iff. by exists (k0, fps).
Qed.

Lemma In_lookup_group K sm :
  In K (map fst sm) -> In (K, lookup_group K sm) sm.
Proof.
  induction sm as [|[k0 f0] sm IH]; simpl; [done|].
  destruct (String.eqb_spec K k0) as [->|HK]; [auto|].
  intros [H|H]; [congruence | auto].
Qed.

Lemma lookup_add_all_In K p entries sm :
  In p (lookup_group K (add_all entries sm))
  <-> In p (lookup_group K sm) \/ In (K, p) entries.
Proof.
  revert sm. induction entries as [|[k q] entries IH]; intros sm; simpl; [tauto|].
  change (add_all ((k, q) :: entries) sm) with (add_all entries (setdefault_add k q sm)).
  rewrite IH, lookup_setdefault_add.
  destruct (String.eqb_spec K k) as [->|HK].
  - rewrite set_add_In. split; [intros [[H| ->]|H] | intros [H|[H|H]]]; auto.
    injection H as ->. auto.
  - split; [tauto|]. intros [H|[H|H]]; auto. congruence.
Qed.

Lemma lookup_add_all_NoDup entries sm :
  (forall K, List.NoDup (lookup_group K sm)) ->
  forall K, List.NoDup (lookup_group K (add_all entries sm)).
Proof.
  revert sm. induction entries as [|[k q] entries IH]; intros sm Hsm K; [apply Hsm|].
  change (add_all ((k, q) :: entries) sm) with (add_all entries (setdefault_add k q sm)).
  apply IH. intros K'. rewrite lookup_setdefault_add.
  destruct (String.eqb K' k); [apply set_add_NoDup|]; apply Hsm.
Qed.

Lemma keys_add_all K entries sm :
  In K (map fst (add_all entries sm))
  <-> In K (map fst sm) \/ exists p, In (K, p) entries.
Proof.
  revert sm. induction entries as [|[k q] entries IH]; intros sm.
  - simpl. split; [tauto|]. intros [H|[p []]]; done.
  - change (add_all ((k, q) :: entries) sm) with (add_all entries (setdefault_add k q sm)).
    rewrite IH, keys_setdefault_add. simpl. split.
    + intros [[H| ->]|[p H]]; eauto.
    + intros [H|[p [H|H]]]; eauto. injection H as -> ->. auto.
Qed.

Lemma keys_add_all_NoDup entries sm :
  List.NoDup (map fst sm) -> List.NoDup (map fst (add_all entries sm)).
Proof.
  revert sm. induction entries as [|[k q] entries IH]; intros sm Hsm; [done|].
  change (add_all ((k, q) :: entries) sm) with (add_all entries (setdefault_add k q sm)).
  by apply IH, keys_setdefault_add_NoDup.
Qed.

(** The group of a name holds each file keyed by it, once. *)
Lemma group_In entries K p : In p (group entries K) <-> In (K, p) entries.
Proof. unfold group. rewrite lookup_add_all_In. simpl. tauto. Qed.

Lemma group_NoDup entries K : List.NoDup (group entries K).
Proof. apply lookup_add_all_NoDup. intros K'. simpl. constructor. Qed.

Lemma add_all_item entries K fps :
  In (K, fps) (add_all entries []) <-> fps = group entries K /\ exists p, In (K, p) entries.
Proof.
  assert (Hnd : List.NoDup (map fst (add_all entries []))).
  { apply keys_add_all_NoDup. constructor. }
  split.
  - intros Hin. split.
    + symmetry. by apply lookup_group_In.
    + assert (Hk : In K (map fst (add_all entries []))).
      { apply in_map_iff. by exists (K, fps). }
      apply keys_add_all in Hk as [[]|Hk]. exact Hk.
  - intros [-> Hp]. apply In_lookup_group, keys_add_all. auto.
Qed.

(** ** The derived key *)

(** Every safe call name ends with the parenthesis that closes the
    call arguments. *)
Lemma safe_call_name_ends E call_info K :
  safe_call_name E call_info = Ok K -> ends_with rparen K = true.
Proof.
  unfold safe_call_name. intros H.
  repeat step_rbind H.
  injection H as <-.
  rewrite <- !app_assoc'. apply ends_with_snoc.
Qed.

Lemma keyed_ends E paths K p :
  In (K, p) (keyed E paths) -> ends_with rparen K = true.
Proof.
  intros [_ Hc]%in_keyed. unfold classify in Hc.
  destruct (load_result E p) as [[call_info lret]|e]; [|by destruct (is_interrupt e)].
  destruct (safe_call_name E call_info) eqn:Hs; [|done].
  injection Hc as ->. by eapply safe_call_name_ends.
Qed.

(** ** The second loop *)

Lemma fold_left_map_assign {A : Type} (f : A -> string * string) l acc :
  fold_left (fun acc x => assign acc (f x)) l acc = fold_left assign (map f l) acc.
Proof. revert acc. induction l as [|x l IH]; intros acc; simpl; [done | apply IH]. Qed.

Lemma finalize_item_assignments acc item :
  finalize_item acc item
  = fold_left assign (map (fun p => (name_for (fst item) (snd item) p, p)) (snd item)) acc.
Proof.
  destruct item as [K fps]. unfold finalize_item, name_for. simpl.
  rewrite <- fold_left_map_assign.
  by destruct (1 <? length fps)%nat.
Qed.

Lemma finalize_from acc sm :
  fold_left finalize_item sm acc = fold_left assign (assignments sm) acc.
Proof.
  revert acc. induction sm as [|item sm IH]; intros acc; [done|].
  unfold assignments. simpl. rewrite fold_left_app, <- finalize_item_assignments.
  apply IH.
Qed.

Lemma finalize_assignments sm : finalize sm = fold_left assign (assignments sm) ∅.
Proof. apply finalize_from. Qed.

Lemma In_assignments n p sm :
  In (n, p) (assignments sm)
  <-> exists K fps, In (K, fps) sm /\ In p fps /\ n = name_for K fps p.
Proof.
  unfold assignments. rewrite in_flat_map. split.
  - intros ([K fps] & Hin & Hp). apply in_map_iff in Hp as (q & Heq & Hq).
    injection Heq as <- <-. eauto.
  - intros (K & fps & Hin & Hp & ->). exists (K, fps). split; [done|].
    apply in_map_iff. eauto.
Qed.

(** An entry of the finished map was assigned, or was there before. *)
Lemma fold_assign_sound l m0 n p :
  fold_left assign l m0 !! n = Some p -> In (n, p) l \/ m0 !! n = Some p.
Proof.
  revert m0. induction l as [|[n1 p1] l IH]; intros m0; simpl; [auto|].
  intros [H|H]%IH; [auto|]. unfold assign in H. simpl in H.
  destruct (decide (n1 = n)) as [->|Hne].
  - rewrite lookup_insert_eq in H. injection H as ->. auto.
  - rewrite lookup_insert_ne in H by done. auto.
Qed.

Lemma fold_assign_keep l m0 n p :
  (forall q, In (n, q) l -> q = p) ->
  m0 !! n = Some p -> fold_left assign l m0 !! n = Some p.
Proof.
  revert m0. induction l as [|[n1 p1] l IH]; intros m0 Hf H0; simpl; [done|].
  apply IH; [intros q Hq; apply Hf; by right|].
  unfold assign. simpl. destruct (decide (n1 = n)) as [->|Hne].
  - rewrite lookup_insert_eq. f_equal. apply Hf. by left.
  - by rewrite lookup_insert_ne.
Qed.

(** An assignment under a name that no other file is assigned under
    is in the finished map. *)
Lemma fold_assign_complete l m0 n p :
  (forall q, In (n, q) l -> q = p) ->
  In (n, p) l -> fold_left assign l m0 !! n = Some p.
Proof.
  revert m0. induction l as [|[n1 p1] l IH]; intros m0 Hf Hin; simpl; [done|].
  assert (Hf' : forall q, In (n, q) l -> q = p) by (intros q Hq; apply Hf; by right).
  destruct Hin as [Heq|Hin]; [|by apply IH].
  injection Heq as -> ->. apply fold_assign_keep; [done|].
  unfold assign. simpl. apply lookup_insert_eq.
Qed.

Lemma NoDup_map_In_inj {A B : Type} (f : A -> B) l x y :
  List.NoDup (map f l) -> In x l -> In y l -> f x = f y -> x = y.
Proof.
  induction l as [|a l IH]; simpl; [done|].
  intros [Ha Hnd]%List.NoDup_cons_iff [->|Hx] [->|Hy] Hxy; auto.
  - destruct Ha. rewrite Hxy. by apply in_map.
  - destruct Ha. rewrite <- Hxy. by apply in_map.
Qed.

Lemma length_le1_eq {A : Type} (l : list A) x y :
  (length l <= 1)%nat -> In x l -> In y l -> x = y.
Proof.
  destruct l as [|a [|b l]]; simpl; [done| |lia].
  intros _ [->|[]] [->|[]]. done.
Qed.

(** ** The finished map, over file names that the suffix tells apart *)

Lemma plain_stems_In paths p :
  plain_stems paths -> In p paths -> has_char rparen (file_stem p) = false.
Proof.
  unfold plain_stems. rewrite forallb_forall. intros H Hp.
  by apply negb_true_iff, H.
Qed.

Lemma length_le1 {A : Type} (l : list A) :
  List.NoDup l -> (forall x y, In x l -> In y l -> x = y) -> (length l <= 1)%nat.
Proof.
  destruct l as [|a [|b l]]; simpl; [lia..|].
  intros [Ha _]%List.NoDup_cons_iff H. destruct Ha.
  left. apply H; auto.
Qed.

Lemma length_gt1 {A : Type} (l : list A) x y :
  In x l -> In y l -> x <> y -> (1 < length l)%nat.
Proof.
  destruct l as [|a [|b l]]; simpl; [done| |lia].
  intros [->|[]] [->|[]]. done.
Qed.



Section Index.

Variable E : collaborators.
Variable paths : list string.
Hypothesis Hplain : plain_stems paths.
Hypothesis Hdistinct : distinct_stems paths.

Let entries := keyed E paths.

Lemma entry_plain K p : In (K, p) entries -> has_char rparen (file_stem p) = false.
Proof. intros [Hp _]%in_keyed. by apply plain_stems_In with paths. Qed.

(** No name is assigned to two files. *)
Lemma final_name_inj K1 p1 K2 p2 :
  In (K1, p1) entries -> In (K2, p2) entries ->
  final_name entries K1 p1 = final_name entries K2 p2 ->
  K1 = K2 /\ p1 = p2.
Proof.
  intros H1 H2. unfold final_name, name_for.
  pose proof (keyed_ends _ _ _ _ H1) as He1.
  pose proof (keyed_ends _ _ _ _ H2) as He2.
  pose proof (entry_plain _ _ H1) as Hp1.
  pose proof (entry_plain _ _ H2) as Hp2.
  destruct (Nat.ltb_spec 1 (length (group entries K1))) as [Hl1|Hl1];
    destruct (Nat.ltb_spec 1 (length (group entries K2))) as [Hl2|Hl2]; intros Heq.
  - apply suffixed_inj in Heq as [-> Hst]; [|done..]. split; [done|].
    apply in_keyed in H1 as [H1 _]. apply in_keyed in H2 as [H2 _].
    by apply (NoDup_map_In_inj file_stem paths).
  - by apply suffixed_not_bare in Heq.
  - symmetry in Heq. by apply suffixed_not_bare in Heq.
  - subst K2. split; [done|].
    apply (length_le1_eq (group entries K1)); [done|by apply group_In..].
Qed.

(** The finished map holds exactly the final name of each file that
    was loaded and named. *)
Lemma finalize_lookup n p :
  finalize (add_all entries []) !! n = Some p
  <-> exists K, In (K, p) entries /\ n = final_name entries K p.
Proof.
  rewrite finalize_assignments. split.
  - intros [H|H]%fold_assign_sound; [|by rewrite lookup_empty in H].
    apply In_assignments in H as (K & fps & [-> _]%add_all_item & Hp & ->).
    exists K. split; [by apply group_In | done].
  - intros (K & Hin & ->). apply fold_assign_complete.
    + intros q Hq.
      apply In_assignments in Hq as (K' & fps & [-> _]%add_all_item & Hq & Heq).
      apply group_In in Hq.
      by destruct (final_name_inj _ _ _ _ Hin Hq Heq).
    + apply In_assignments. exists K, (group entries K).
      split; [apply add_all_item; eauto|].
      split; [by apply group_In | done].
Qed.



End Index.

(** ** The property *)

Section Property.

Variable E : collaborators.

(** An unbuilt index over files that load or are skipped is built. *)
Lemma build_benign st :
  __name_source_map st = None ->
  forallb (benign E) (fs_glob E (glob_pattern st)) = true ->
  let paths := fs_glob E (glob_pattern st) in
  let m := finalize (add_all (keyed E paths) []) in
  _name_source_map E st
  = (Ok m, set_name_source_map m (extend (EGlob (glob_pattern st) :: scan_events E paths) st)).
Proof.
  intros Hnone Hb paths m. unfold _name_source_map. rewrite Hnone.
  rewrite scan_benign by done. by rewrite log_extend, extend_extend.
Qed.

(** A build that returned met only such files. *)
Lemma build_Ok st m st' :
  __name_source_map st = None ->
  _name_source_map E st = (Ok m, st') ->
  forallb (benign E) (fs_glob E (glob_pattern st)) = true.
Proof.
  intros Hnone. unfold _name_source_map. rewrite Hnone.
  destruct (scan E _ [] _) as [[sm|e] st2] eqn:Hscan; [|done].
  intros _. by eapply scan_Ok_benign.
Qed.

(** A built index is returned as it is. *)
Lemma built st m :
  __name_source_map st = Some m -> _name_source_map E st = (Ok m, st).
Proof. intros H. unfold _name_source_map. by rewrite H. Qed.

(** Whatever [_name_source_map] returns is cached from then on. *)
Lemma cached_after st m st' :
  _name_source_map E st = (Ok m, st') -> __name_source_map st' = Some m.
Proof.
  unfold _name_source_map. destruct (__name_source_map st) as [m0|] eqn:H0.
  - intros [= <- <-]. done.
  - destruct (scan E _ [] _) as [[sm|e] st2]; [|done]. intros [= <- <-]. done.
Qed.

End Property.

(** ** The files of one directory *)

Lemma has_char_app c s t : has_char c (s +:+ t) = has_char c s || has_char c t.
Proof.
  induction s as [|a s IH]; [done|].
  rewrite app_cons. simpl. rewrite IH. by rewrite orb_assoc.
Qed.

Lemma before_last_snoc c s : before_last c (s +:+ String c "") = Some s.
Proof.
  induction s as [|a s IH].
  - simpl. by rewrite Ascii.eqb_refl.
  - rewrite app_cons. simpl. by rewrite IH.
Qed.

Lemma after_last_snoc c s : after_last c (s +:+ String c "") = Some "".
Proof.
  induction s as [|a s IH].
  - simpl. by rewrite Ascii.eqb_refl.
  - rewrite app_cons. simpl. by rewrite IH.
Qed.

(** The file [x.cache] of a directory has the name [x] without
    extension, when [x] has no slash and a character that is no dot. *)
Lemma file_stem_cache dir x :
  has_char slash x = false -> all_dots x = false ->
  file_stem (dir +:+ "/" +:+ x +:+ ".cache") = x.
Proof.
  intros Hslash Hdots.
  assert (Ht : has_char slash (x +:+ ".cache") = false).
  { rewrite has_char_app, Hslash. reflexivity. }
  assert (Hbase : os_path.basename (dir +:+ "/" +:+ x +:+ ".cache") = x +:+ ".cache").
  { unfold os_path.basename.
    change (dir +:+ "/" +:+ x +:+ ".cache")
      with (dir +:+ (String slash "" +:+ (x +:+ ".cache"))).
    rewrite <- app_assoc', after_last_app, after_last_snoc by done. reflexivity. }
  unfold file_stem. rewrite Hbase. unfold os_path.splitext_root, os_path.basename.
  rewrite (after_last_absent slash _ Ht).
  change (x +:+ ".cache") with (x +:+ (String dot "" +:+ "cache")).
  rewrite <- app_assoc', before_last_app, before_last_snoc by done.
  by rewrite Hdots.
Qed.

(** The cache files of one directory, under names without slash or
    closing parenthesis that do not consist of dots, are told apart by
    the suffix. *)
Lemma directory_stems dir names :
  List.NoDup names ->
  (forall x, In x names ->
     has_char slash x = false /\ all_dots x = false /\ has_char rparen x = false) ->
  let paths := map (fun x => dir +:+ "/" +:+ x +:+ ".cache") names in
  plain_stems paths /\ distinct_stems paths.
Proof.
  intros Hnd Hnames paths.
  assert (Hstems : map file_stem paths = names).
  { subst paths. rewrite map_map. clear Hnd.
    induction names as [|x names IH]; [done|]. simpl.
    destruct (Hnames x (or_introl eq_refl)) as (Hs & Hd & _).
    rewrite file_stem_cache by done. f_equal. apply IH.
    intros y Hy. apply Hnames. by right. }
  split.
  - unfold plain_stems. apply forallb_forall. intros p Hp.
    apply in_map_iff in Hp as (x & <- & Hx).
    destruct (Hnames x Hx) as (Hs & Hd & Hr).
    rewrite file_stem_cache by done. by rewrite Hr.
  - unfold distinct_stems. by rewrite Hstems.
Qed.

(** * The claims *)

(** ** The derived key (C3) *)

(** C3. For a raw record made of a head, a call name and call
    arguments, the safe call name the scan computes is the derived key
    of the specification: the head read as a service with arguments
    when it is a tuple or a list with a first element, as a bare
    service otherwise; the secure-name transform applied to every
    name and argument; the arguments joined by a comma and a space
    inside parentheses; the two halves joined by an underscore.  Empty
    argument lists give empty parentheses. *)
Theorem safe_call_name_is_derived_key E head call_name call_args svc :
  service_of head = Some svc ->
  safe_call_name E (PTuple (head :: call_name :: call_args))
  = Ok (derived_key (_secure_name E) svc call_name call_args)
  /\ safe_call_name E (PList (head :: call_name :: call_args))
     = Ok (derived_key (_secure_name E) svc call_name call_args)
  /\ (is_sequence head = false -> svc = ServiceBare head)
  /\ (forall n a, head = PTuple (n :: a) \/ head = PList (n :: a) ->
        svc = ServiceWithArgs n a)
  /\ derived_key (_secure_name E) (ServiceBare head) call_name []
     = _secure_name E head +:+ "()_" +:+ _secure_name E call_name +:+ "()".
Proof.
  intros Hsvc. repeat split.
  - destruct head as [| | |[|n a]|[|n a]| | |]; simpl in Hsvc; try discriminate Hsvc;
      injection Hsvc as <-; reflexivity.
  - destruct head as [| | |[|n a]|[|n a]| | |]; simpl in Hsvc; try discriminate Hsvc;
      injection Hsvc as <-; reflexivity.
  - intros Hseq. destruct head as [| | |l|l| | |]; simpl in Hseq; try discriminate Hseq;
      simpl in Hsvc; congruence.
  - intros n a [-> | ->]; simpl in Hsvc; congruence.
Qed.

Lemma safe_call_name_is_derived_key_witness :
  safe_call_name (Demo.world Demo.twins)
    (PTuple [PTuple [PStr "svcX"; PInt 1]; PStr "callY"; PStr "z"])
  = Ok "svcX(1)_callY(z)".
Proof.
  exact (proj1 (safe_call_name_is_derived_key (Demo.world Demo.twins)
                  (PTuple [PStr "svcX"; PInt 1]) (PStr "callY") [PStr "z"]
                  (ServiceWithArgs (PStr "svcX") [PInt 1]) eq_refl)).
Defined.

(** ** Errors during the scan (C8, C9) *)

(** C9. The guard of the first loop covers the load only.  When a
    file's bytes load into a record from which no name can be derived,
    for one the empty record, or a record whose head is an empty
    sequence, the error of the derivation ends the build: the property
    raises it, having opened that file last and printed no notice for
    it; nothing is cached, and the files after it are not read. *)
Theorem decomposition_error_escapes E st pre p post call_info lret e :
  __name_source_map st = None ->
  fs_glob E (glob_pattern st) = (pre ++ p :: post)%list ->
  forallb (benign E) pre = true ->
  load_result E p = Ok (call_info, lret) ->
  safe_call_name E call_info = Raise e ->
  let st' := extend (EGlob (glob_pattern st) :: scan_events E pre ++ [EOpen p]) st in
  _name_source_map E st = (Raise e, st')
  /\ contname_iter E st = (Raise e, st')
  /\ __name_source_map st' = None
  /\ safe_call_name E (PTuple []) = Raise IndexError
  /\ (forall rest, safe_call_name E (PTuple (PTuple [] :: rest)) = Raise IndexError).
Proof.
  intros Hnone Hglob Hpre Hload Hname st'.
  assert (Hc : classify E p = Aborts e).
  { unfold classify. by rewrite Hload, Hname. }
  assert (Hmap : _name_source_map E st = (Raise e, st')).
  { unfold _name_source_map. rewrite Hnone, Hglob.
    rewrite (scan_aborts E pre p post e) by done.
    by rewrite log_extend, extend_extend. }
  split; [done|]. split; [unfold contname_iter; by rewrite Hmap|].
  split; [done|]. split; [done|]. by intros [|x rest].
Qed.

Lemma decomposition_error_escapes_witness :
  _name_source_map (Demo.world Demo.hollow) Demo.fresh
  = (Raise IndexError,
     extend [EGlob "/cache/CachedMethodCalls/*.cache";
             EOpen "/cache/CachedMethodCalls/a.cache";
             EOpen "/cache/CachedMethodCalls/e.cache"] Demo.fresh).
Proof.
  exact (proj1 (decomposition_error_escapes (Demo.world Demo.hollow) Demo.fresh
                  [Demo.dir "a.cache"] (Demo.dir "e.cache") [Demo.dir "b.cache"]
                  (PTuple []) PNone IndexError
                  eq_refl eq_refl eq_refl eq_refl eq_refl)).
Defined.

(** C8. A keyboard interrupt raised while a file is being loaded ends
    the scan at once: the property raises the interrupt itself, having
    opened that file last and printed no notice for it, and caches
    nothing. *)
Theorem interrupt_propagates E st pre p post :
  __name_source_map st = None ->
  fs_glob E (glob_pattern st) = (pre ++ p :: post)%list ->
  forallb (benign E) pre = true ->
  load_result E p = Raise KeyboardInterrupt ->
  let st' := extend (EGlob (glob_pattern st) :: scan_events E pre ++ [EOpen p]) st in
  _name_source_map E st = (Raise KeyboardInterrupt, st')
  /\ contname_iter E st = (Raise KeyboardInterrupt, st')
  /\ (forall name, get_data E name st = (Raise KeyboardInterrupt, st'))
  /\ __name_source_map st' = None.
Proof.
  intros Hnone Hglob Hpre Hload st'.
  assert (Hc : classify E p = Aborts KeyboardInterrupt).
  { unfold classify. by rewrite Hload. }
  assert (Hmap : _name_source_map E st = (Raise KeyboardInterrupt, st')).
  { unfold _name_source_map. rewrite Hnone, Hglob.
    rewrite (scan_aborts E pre p post KeyboardInterrupt) by done.
    by rewrite log_extend, extend_extend. }
  split; [done|]. split; [unfold contname_iter; by rewrite Hmap|].
  split; [intros name; unfold get_data; by rewrite Hmap|]. done.
Qed.

Lemma interrupt_propagates_witness :
  _name_source_map (Demo.world Demo.interrupted) Demo.fresh
  = (Raise KeyboardInterrupt,
     extend [EGlob "/cache/CachedMethodCalls/*.cache";
             EOpen "/cache/CachedMethodCalls/a.cache";
             EOpen "/cache/CachedMethodCalls/k.cache"] Demo.fresh).
Proof.
  exact (proj1 (interrupt_propagates (Demo.world Demo.interrupted) Demo.fresh
                  [Demo.dir "a.cache"] (Demo.dir "k.cache") [Demo.dir "b.cache"]
                  eq_refl eq_refl eq_refl eq_refl)).
Defined.

(** ** Lookups (C7, C10) *)

(** C7, as amended.  A lookup of a name that the index does not
    hold raises [ContainerNameError] and opens no cache file of its
    own: the state it leaves is the state the access to the index
    left.  On an object whose index is built that is the state before
    the lookup, so there is no input or output and the object is
    unchanged.  On an object whose index is not built yet the lookup
    is what builds it: the directory is listed and scanned, the index
    is cached, and nothing is done beyond that. *)
Theorem get_data_unavailable E st m st1 name :
  _name_source_map E st = (Ok m, st1) ->
  m !! name = None ->
  get_data E name st = (Raise (ContainerNameError (unavailable_msg name)), st1)
  /\ __name_source_map st1 = Some m
  /\ (forall m0, __name_source_map st = Some m0 -> st1 = st)
  /\ (__name_source_map st = None ->
      st1 = set_name_source_map m
              (extend (EGlob (glob_pattern st)
                       :: scan_events E (fs_glob E (glob_pattern st))) st))
  /\ get_data E name st1 = (Raise (ContainerNameError (unavailable_msg name)), st1).
Proof.
  intros Hmap Hname.
  pose proof (cached_after E _ _ _ Hmap) as Hc.
  split; [unfold get_data; by rewrite Hmap, Hname|].
  split; [done|]. split; [|split].
  - intros m0 Hb. rewrite (built E st m0 Hb) in Hmap. by injection Hmap.
  - intros Hnone. pose proof (build_Ok E st m st1 Hnone Hmap) as Hb.
    rewrite (build_benign E st Hnone Hb) in Hmap. by injection Hmap as <- <-.
  - unfold get_data. by rewrite (built E st1 m Hc), Hname.
Qed.

Lemma get_data_unavailable_witness :
  let E := Demo.world Demo.twins in
  let st1 := snd (_name_source_map E Demo.fresh) in
  get_data E "nonexistent" Demo.fresh
  = (Raise (ContainerNameError (unavailable_msg "nonexistent")), st1)
  /\ get_data E "nonexistent" st1
     = (Raise (ContainerNameError (unavailable_msg "nonexistent")), st1).
Proof.
  intros E st1.
  destruct (get_data_unavailable E Demo.fresh
              (finalize (add_all (keyed E (fs_glob E (glob_pattern Demo.fresh))) []))
              st1 "nonexistent") as (H1 & _ & _ & _ & H2).
  - vm_compute. reflexivity.
  - vm_compute. reflexivity.
  - split; [exact H1 | exact H2].
Defined.

(** C7 as stated fails: on a new object over the directory of the two
    twins, the lookup of a name the index will not hold lists the
    directory, opens both files, and caches the index. *)
Lemma get_data_unavailable_counterexample :
  ~ lookup_claim (Demo.world Demo.twins) Demo.fresh "nonexistent".
Proof.
  intros H.
  destruct (H (finalize (add_all (keyed (Demo.world Demo.twins)
                 (fs_glob (Demo.world Demo.twins) (glob_pattern Demo.fresh))) []))
              (snd (_name_source_map (Demo.world Demo.twins) Demo.fresh)))
    as (_ & Htrace & _).
  - vm_compute. reflexivity.
  - vm_compute. reflexivity.
  - vm_compute in Htrace. discriminate Htrace.
Qed.

(** C10. When the name is in the index and loading its file fails at
    fetch time, [get_data] raises the very error of the load, whatever
    it is; the file was opened, nothing is printed, and the error is not
    turned into [ContainerNameError]. *)
Theorem get_data_load_error E st m st1 name filepath e :
  _name_source_map E st = (Ok m, st1) ->
  m !! name = Some filepath ->
  load_result E filepath = Raise e ->
  get_data E name st = (Raise e, extend [EOpen filepath] st1)
  /\ __read_cache_file E filepath st1 = (Raise e, extend [EOpen filepath] st1).
Proof.
  intros Hmap Hname Hload.
  unfold get_data, __read_cache_file. by rewrite Hmap, Hname, Hload.
Qed.

Lemma get_data_load_error_witness :
  get_data (Demo.world Demo.mixed) "old"
    (set_name_source_map {["old" := Demo.dir "nolret.cache"]} Demo.fresh)
  = (Raise KeyError,
     extend [EOpen (Demo.dir "nolret.cache")]
       (set_name_source_map {["old" := Demo.dir "nolret.cache"]} Demo.fresh)).
Proof.
  exact (proj1 (get_data_load_error (Demo.world Demo.mixed)
                  (set_name_source_map {["old" := Demo.dir "nolret.cache"]} Demo.fresh)
                  {["old" := Demo.dir "nolret.cache"]} _ "old"
                  (Demo.dir "nolret.cache") KeyError
                  eq_refl eq_refl eq_refl)).
Defined.

(** ** One build (C5) *)






(** ** The files that load *)

Lemma loads_classify E p :
  benign E p = true ->
  (loads E p = true <-> exists K, classify E p = Keyed K).
Proof.
  unfold benign, loads, classify.
  destruct (load_result E p) as [[call_info lret]|e].
  - destruct (safe_call_name E call_info); [|done]. intros _. split; eauto.
  - destruct (is_interrupt e); [done|]. intros _. split; [done | by intros [K HK]].
Qed.

Lemma keyed_loads E paths :
  forallb (benign E) paths = true ->
  keyed E (List.filter (loads E) paths) = keyed E paths
  /\ forallb (benign E) (List.filter (loads E) paths) = true.
Proof.
  induction paths as [|p rest IH]; [done|]. simpl.
  intros [Hp Hrest]%andb_true_iff. destruct (IH Hrest) as [IH1 IH2].
  pose proof (loads_classify E p Hp) as Hl.
  destruct (loads E p) eqn:Hloads; simpl.
  - rewrite Hp, IH1, IH2. done.
  - destruct (classify E p) as [K|e|e] eqn:Hc; [|done..].
    assert (false = true) by (apply Hl; eauto). done.
Qed.

(** ** The finished index (C1, C2, C4, C6) *)

Section Built.

Variable E : collaborators.
Variable st : state.
Hypothesis Hnone : __name_source_map st = None.

Let paths := fs_glob E (glob_pattern st).
Let entries := keyed E paths.

Lemma build_result m st' :
  _name_source_map E st = (Ok m, st') ->
  forallb (benign E) paths = true
  /\ m = finalize (add_all entries [])
  /\ st' = set_name_source_map m
             (extend (EGlob (glob_pattern st) :: scan_events E paths) st).
Proof.
  intros Hmap. pose proof (build_Ok E st m st' Hnone Hmap) as Hb.
  rewrite (build_benign E st Hnone Hb) in Hmap.
  injection Hmap as <- <-. done.
Qed.

End Built.

Lemma entry_key_unique E paths K1 K2 p :
  In (K1, p) (keyed E paths) -> In (K2, p) (keyed E paths) -> K1 = K2.
Proof. intros [_ H1]%in_keyed [_ H2]%in_keyed. congruence. Qed.

(** C1, as amended.  When the listed files have pairwise distinct
    names without extension, none of which contains a closing
    parenthesis, the map that an unbuilt index is built into has, for
    every derived key of exactly one file, an entry of that name for
    that file, and for every derived key of two or more files an entry
    for each of them under the key followed by an underscore and the
    file's name without extension, and no entry under the bare key. *)
Theorem finalization_names E st m st' :
  __name_source_map st = None ->
  plain_stems (fs_glob E (glob_pattern st)) ->
  distinct_stems (fs_glob E (glob_pattern st)) ->
  _name_source_map E st = (Ok m, st') ->
  finalization_claim (keyed E (fs_glob E (glob_pattern st))) m.
Proof.
  intros Hnone Hplain Hdistinct Hmap.
  destruct (build_result E st Hnone m st' Hmap) as (_ & -> & _).
  remember (fs_glob E (glob_pattern st)) as paths eqn:Hpaths. clear Hpaths.
  intros K. split.
  - intros p Hin Huniq.
    apply (finalize_lookup E paths Hplain Hdistinct). exists K. split; [done|].
    unfold final_name, name_for.
    destruct (1 <? length (group _ K))%nat eqn:Hl; [|done].
    apply Nat.ltb_lt in Hl.
    assert (length (group (keyed E paths) K) <= 1)%nat; [|lia].
    apply length_le1; [apply group_NoDup|].
    intros x y Hx%group_In Hy%group_In.
    rewrite (Huniq x Hx). by rewrite (Huniq y Hy).
  - intros (p & q & Hp & Hq & Hpq).
    assert (Hlen : (1 <? length (group (keyed E paths) K))%nat = true).
    { apply Nat.ltb_lt. apply (length_gt1 _ p q); [by apply group_In..|done]. }
    split.
    + intros r Hr. apply (finalize_lookup E paths Hplain Hdistinct).
      exists K. split; [done|]. unfold final_name, name_for. by rewrite Hlen.
    + destruct (finalize (add_all (keyed E paths) []) !! K) as [r|] eqn:HK; [|done].
      apply (finalize_lookup E paths Hplain Hdistinct) in HK as (K' & Hr & HK).
      unfold final_name, name_for in HK.
      destruct (1 <? length (group (keyed E paths) K'))%nat eqn:Hl'.
      * symmetry in HK. apply suffixed_not_bare in HK; [done | |].
        -- by apply (keyed_ends E paths K p).
        -- by apply (entry_plain E paths Hplain K' r).
      * subst K'. congruence.
Qed.

Lemma finalization_names_witness :
  let E := Demo.world Demo.twins in
  finalization_claim (keyed E (fs_glob E (glob_pattern Demo.fresh)))
    (finalize (add_all (keyed E (fs_glob E (glob_pattern Demo.fresh))) [])).
Proof.
  intros E.
  eapply (finalization_names E Demo.fresh).
  - reflexivity.
  - reflexivity.
  - solve_distinct.
  - vm_compute. reflexivity.
Defined.

(** C1 as stated fails: with a file named [x)] among two files of the
    call [a()_b()], and a third file whose only call has the derived
    key [a()_b()_x)], that key has exactly one file, and the entry of
    that name is another file. *)
Lemma finalization_names_counterexample :
  let E := Demo.world Demo.clash in
  let entries := keyed E (fs_glob E (glob_pattern Demo.fresh)) in
  let m := finalize (add_all entries []) in
  fst (_name_source_map E Demo.fresh) = Ok m
  /\ ~ finalization_claim entries m.
Proof.
  intros E entries m. split; [vm_compute; reflexivity|].
  intros H. destruct (H "a()_b()_x)") as [H1 _].
  specialize (H1 (Demo.dir "z.cache")).
  assert (Hm : m !! "a()_b()_x)" = Some (Demo.dir "z.cache")).
  { apply H1.
    - vm_compute. left. reflexivity.
    - intros q Hq. vm_compute in Hq.
      destruct Hq as [Hq|[Hq|[Hq|[]]]]; [|discriminate Hq..].
      injection Hq as <-. reflexivity. }
  vm_compute in Hm. discriminate Hm.
Qed.

(** C2, as amended.  When the files that load have pairwise distinct
    names without extension, none of which contains a closing
    parenthesis, the map that an unbuilt index is built into covers
    the loaded files one to one: each loaded file is the value of
    exactly one entry, every entry is a loaded file, and no two loaded
    files get the same final name.  Nothing is asked of the names of
    the files that fail to load. *)
Theorem index_covers_loaded_files E st m st' :
  __name_source_map st = None ->
  plain_stems (List.filter (loads E) (fs_glob E (glob_pattern st))) ->
  distinct_stems (List.filter (loads E) (fs_glob E (glob_pattern st))) ->
  _name_source_map E st = (Ok m, st') ->
  coverage_claim (keyed E (fs_glob E (glob_pattern st))) m.
Proof.
  intros Hnone Hplain Hdistinct Hmap.
  destruct (build_result E st Hnone m st' Hmap) as (Hb & -> & _).
  remember (fs_glob E (glob_pattern st)) as paths eqn:Hpaths. clear Hpaths.
  destruct (keyed_loads E paths Hb) as [Hk _].
  pose proof (finalize_lookup E _ Hplain Hdistinct) as Hlookup.
  pose proof (final_name_inj E _ Hplain Hdistinct) as Hinj.
  rewrite Hk in Hlookup, Hinj.
  split; [|split].
  - intros K p Hin. exists (final_name (keyed E paths) K p). split.
    + apply Hlookup. eauto.
    + intros n' Hn'. apply Hlookup in Hn' as (K' & Hin' & ->).
      by rewrite (entry_key_unique E paths K K' p).
  - intros n p Hn. apply Hlookup in Hn as (K & Hin & _). eauto.
  - intros K1 p1 K2 p2 H1 H2 Hne Heq.
    by destruct (Hinj K1 p1 K2 p2 H1 H2 Heq).
Qed.

Lemma index_covers_loaded_files_witness :
  let E := Demo.world Shapes.copies in
  coverage_claim (keyed E (fs_glob E (glob_pattern Demo.fresh)))
    (finalize (add_all (keyed E (fs_glob E (glob_pattern Demo.fresh))) [])).
Proof.
  intros E.
  eapply (index_covers_loaded_files E Demo.fresh).
  - reflexivity.
  - reflexivity.
  - solve_distinct.
  - vm_compute. reflexivity.
Defined.

(** C2 as stated fails: in the same directory the three files load,
    the file [z.cache] is the value of no entry, and it gets the same
    final name as the file named [x)]. *)
Lemma index_covers_loaded_files_counterexample :
  let E := Demo.world Demo.clash in
  let entries := keyed E (fs_glob E (glob_pattern Demo.fresh)) in
  let m := finalize (add_all entries []) in
  fst (_name_source_map E Demo.fresh) = Ok m
  /\ In ("a()_b()_x)", Demo.dir "z.cache") entries
  /\ (forall n, m !! n <> Some (Demo.dir "z.cache"))
  /\ ~ coverage_claim entries m.
Proof.
  intros E entries m.
  assert (Hin : In ("a()_b()_x)", Demo.dir "z.cache") entries).
  { vm_compute. left. reflexivity. }
  assert (Hno : forall n, m !! n <> Some (Demo.dir "z.cache")).
  { intros n Hn. apply elem_of_map_to_list in Hn.
    assert (Hl : map_to_list m
                 = [("a()_b()_y", Demo.dir "y.cache"); ("a()_b()_x)", Demo.dir "x).cache")]).
    { vm_compute. reflexivity. }
    rewrite Hl in Hn.
    apply elem_of_cons in Hn as [Hn|Hn]; [discriminate Hn|].
    apply elem_of_cons in Hn as [Hn|Hn]; [discriminate Hn|].
    by apply elem_of_nil in Hn. }
  split; [vm_compute; reflexivity|]. split; [done|]. split; [done|].
  intros [Hcov _]. destruct (Hcov _ _ Hin) as (n & Hn & _). by apply (Hno n).
Qed.

(** ** The order of the listing (C6) *)

Lemma final_name_ext e1 e2 K p :
  (forall K' q, In (K', q) e1 <-> In (K', q) e2) ->
  final_name e1 K p = final_name e2 K p.
Proof.
  intros Hext. unfold final_name, name_for.
  assert (Hperm : Permutation (group e1 K) (group e2 K)).
  { apply Permutation.NoDup_Permutation; [apply group_NoDup..|].
    intros x. rewrite !group_In. apply Hext. }
  by rewrite (Permutation_length Hperm).
Qed.

(** C6, as amended.  When the listed files have pairwise distinct
    names without extension, none of which contains a closing
    parenthesis, listing the same files in any other order builds the
    same map. *)
Theorem index_independent_of_order E g st :
  plain_stems (fs_glob E (glob_pattern st)) ->
  distinct_stems (fs_glob E (glob_pattern st)) ->
  order_claim E g st.
Proof.
  intros Hplain Hdistinct Hperm m st1 Hmap.
  destruct (__name_source_map st) as [m0|] eqn:Hcache.
  - rewrite (built E st m0 Hcache) in Hmap. injection Hmap as <- <-.
    exists st. by apply built.
  - destruct (build_result E st Hcache m st1 Hmap) as (Hb & -> & _).
    specialize (Hperm (glob_pattern st)).
    set (E' := with_glob g E).
    remember (fs_glob E (glob_pattern st)) as paths eqn:Hpaths.
    assert (Hb' : forallb (benign E') (fs_glob E' (glob_pattern st)) = true).
    { apply forallb_forall. intros p Hp. rewrite forallb_forall in Hb.
      apply (Hb p). by apply (Permutation_in _ Hperm). }
    assert (Hplain' : plain_stems (g (glob_pattern st))).
    { unfold plain_stems in *. apply forallb_forall. intros p Hp.
      rewrite forallb_forall in Hplain. apply Hplain.
      by apply (Permutation_in _ Hperm). }
    assert (Hdistinct' : distinct_stems (g (glob_pattern st))).
    { unfold distinct_stems in *.
      apply (Permutation_NoDup (l := map file_stem paths)); [|done].
      apply Permutation_map. by symmetry. }
    eexists. rewrite (build_benign E' st Hcache Hb'). f_equal. f_equal.
    change (fs_glob E' (glob_pattern st)) with (g (glob_pattern st)).
    change (keyed E' (g (glob_pattern st))) with (keyed E (g (glob_pattern st))).
    assert (Hext : forall K q, In (K, q) (keyed E (g (glob_pattern st)))
                               <-> In (K, q) (keyed E paths)).
    { intros K q. rewrite !in_keyed. split; intros [Hq Hc]; split; try done.
      - by apply (Permutation_in _ Hperm).
      - apply (Permutation_in q (Permutation_sym Hperm)). done. }
    apply map_eq. intros n. apply option_eq. intros p.
    rewrite (finalize_lookup E _ Hplain' Hdistinct').
    rewrite (finalize_lookup E _ Hplain Hdistinct).
    split; intros (K & Hin & ->); exists K; (split; [by apply Hext|]).
    + by apply final_name_ext.
    + symmetry. by apply final_name_ext.
Qed.

Lemma index_independent_of_order_witness :
  let E := Demo.world Demo.twins in
  order_claim E (fun pattern => rev (fs_glob E pattern)) Demo.fresh.
Proof.
  intros E.
  apply (index_independent_of_order E (fun pattern => rev (fs_glob E pattern)) Demo.fresh).
  - reflexivity.
  - solve_distinct.
Defined.

(** C6 as stated fails: in the directory of the clash, listing the
    three files in the opposite order gives the name [a()_b()_x)] to
    another file. *)
Lemma index_independent_of_order_counterexample :
  let E := Demo.world Demo.clash in
  ~ order_claim E (fun pattern => rev (fs_glob E pattern)) Demo.fresh.
Proof.
  intros E H.
  destruct (H (fun pattern => Permutation_sym (Permutation_rev (fs_glob E pattern)))
              (finalize (add_all (keyed E (fs_glob E (glob_pattern Demo.fresh))) []))
              (snd (_name_source_map E Demo.fresh)))
    as [st2 H2].
  - vm_compute. reflexivity.
  - apply (f_equal (fun r => match fst r with
                             | Ok m => m !! "a()_b()_x)"
                             | Raise _ => None
                             end)) in H2.
    vm_compute in H2. discriminate H2.
Qed.

(** ** Files that fail to load (C4) *)







(** * Further properties of the code *)

(** ** The names in order *)

Lemma leb_true_le a b : leb_true a b <-> String.le a b.
Proof. unfold leb_true, String.le. by rewrite Is_true_true. Qed.

Lemma leb_true_trans a b c : leb_true a b -> leb_true b c -> leb_true a c.
Proof. rewrite !leb_true_le. apply transitivity. Qed.

Lemma leb_false_flip a b : String.leb a b = false -> leb_true b a.
Proof.
  intros H. unfold leb_true. destruct (String.leb_total a b) as [H'|H']; congruence.
Qed.

Lemma insert_sorted_Permutation x l : Permutation (insert_sorted x l) (x :: l).
Proof.
  induction l as [|y l IH]; simpl; [done|].
  destruct (String.leb x y); [done|].
  rewrite IH. apply perm_swap.
Qed.

Lemma sorted_Permutation l : Permutation (sorted l) l.
Proof.
  induction l as [|x l IH]; simpl; [done|].
  rewrite insert_sorted_Permutation. by constructor.
Qed.

Lemma insert_sorted_StronglySorted x l :
  StronglySorted leb_true l -> StronglySorted leb_true (insert_sorted x l).
Proof.
  induction 1 as [|y l Hl IH Hy]; simpl; [repeat constructor|].
  destruct (String.leb x y) eqn:Hxy.
  - constructor; [by constructor|]. constructor; [done|].
    eapply List.Forall_impl; [|exact Hy]. intros z Hz. by apply leb_true_trans with y.
  - constructor; [done|].
    rewrite insert_sorted_Permutation.
    constructor; [by apply leb_false_flip | done].
Qed.

Lemma sorted_StronglySorted l : StronglySorted leb_true (sorted l).
Proof.
  induction l as [|x l IH]; simpl; [constructor | by apply insert_sorted_StronglySorted].
Qed.

Lemma StronglySorted_le l : StronglySorted leb_true l -> StronglySorted String.le l.
Proof.
  induction 1 as [|y l Hl IH Hy]; constructor; [done|].
  eapply List.Forall_impl; [|exact Hy]. intros z. apply leb_true_le.
Qed.

(** A list in order has one arrangement. *)
Lemma sorted_unique l1 l2 : Permutation l1 l2 -> sorted l1 = sorted l2.
Proof.
  intros Hperm.
  apply (StronglySorted_unique String.le).
  - apply StronglySorted_le, sorted_StronglySorted.
  - apply StronglySorted_le, sorted_StronglySorted.
  - by rewrite !sorted_Permutation.
Qed.

Lemma names_of_spec m :
  StronglySorted leb_true (names_of m)
  /\ List.NoDup (names_of m)
  /\ (forall n, In n (names_of m) <-> is_Some (m !! n))
  /\ length (names_of m) = size m.
Proof.
  unfold names_of.
  pose proof (sorted_Permutation (map fst (map_to_list m))) as Hperm.
  split; [apply sorted_StronglySorted|]. split; [|split].
  - apply (Permutation_NoDup (Permutation_sym Hperm)).
    apply NoDup_ListNoDup, (NoDup_fst_map_to_list m).
  - intros n. split.
    + intros Hin. apply (Permutation_in _ Hperm) in Hin.
      apply in_map_iff in Hin as ([n' p] & <- & Hin).
      apply list_elem_of_In, elem_of_map_to_list in Hin. by exists p.
    + intros [p Hp]. apply (Permutation_in _ (Permutation_sym Hperm)).
      apply in_map_iff. exists (n, p). split; [done|].
      by apply list_elem_of_In, elem_of_map_to_list.
  - rewrite (Permutation_length Hperm), length_map. apply length_map_to_list.
Qed.

(** X1. The names [contname_iter] yields are the names of the cached
    index, each once, in ascending order. *)
Theorem contname_iter_in_order E st names st1 :
  contname_iter E st = (Ok names, st1) ->
  exists m,
    __name_source_map st1 = Some m
    /\ StronglySorted (fun a b => String.leb a b = true) names
    /\ List.NoDup names
    /\ (forall n, In n names <-> is_Some (m !! n))
    /\ length names = size m.
Proof.
  unfold contname_iter.
  destruct (_name_source_map E st) as [[m|e] st'] eqn:Hmap; [|done].
  intros [= <- <-]. exists m. split; [by eapply cached_after|].
  apply names_of_spec.
Qed.

Lemma contname_iter_in_order_witness :
  exists m,
    __name_source_map (snd (contname_iter (Demo.world Demo.twins) Demo.fresh)) = Some m
    /\ StronglySorted (fun a b => String.leb a b = true)
         ["svcX(1)_callY(z)_a"; "svcX(1)_callY(z)_b"]
    /\ List.NoDup ["svcX(1)_callY(z)_a"; "svcX(1)_callY(z)_b"]
    /\ (forall n, In n ["svcX(1)_callY(z)_a"; "svcX(1)_callY(z)_b"] <-> is_Some (m !! n))
    /\ length ["svcX(1)_callY(z)_a"; "svcX(1)_callY(z)_b"] = size m.
Proof.
  apply (contname_iter_in_order (Demo.world Demo.twins) Demo.fresh).
  vm_compute. reflexivity.
Defined.

(** ** The empty directory *)

(** X2. Over a directory without cache files an unbuilt index is
    built empty: [contname_iter] yields nothing, having listed the
    directory and opened no file, and then every lookup raises
    [ContainerNameError] without touching the file system. *)
Theorem empty_directory E st :
  __name_source_map st = None ->
  fs_glob E (glob_pattern st) = [] ->
  let st1 := set_name_source_map ∅ (extend [EGlob (glob_pattern st)] st) in
  contname_iter E st = (Ok [], st1)
  /\ (forall name,
        get_data E name st1 = (Raise (ContainerNameError (unavailable_msg name)), st1)).
Proof.
  intros Hnone Hglob st1.
  assert (Hmap : _name_source_map E st = (Ok ∅, st1)).
  { unfold _name_source_map. rewrite Hnone, Hglob. reflexivity. }
  split.
  - unfold contname_iter. rewrite Hmap. by rewrite map_to_list_empty.
  - intros name. unfold get_data. rewrite (built E st1 ∅ eq_refl).
    by rewrite lookup_empty.
Qed.

Lemma empty_directory_witness :
  contname_iter (Demo.world []) Demo.fresh
  = (Ok [], set_name_source_map ∅
              (extend [EGlob "/cache/CachedMethodCalls/*.cache"] Demo.fresh)).
Proof.
  exact (proj1 (empty_directory (Demo.world []) Demo.fresh eq_refl eq_refl)).
Defined.

(** ** Fetching *)

Lemma extend_cons_ne ev evs st : extend (ev :: evs) st <> st.
Proof.
  intros H. apply (f_equal (fun s => length (trace s))) in H.
  simpl in H. rewrite length_app in H. simpl in H. lia.
Qed.

(** X3. A lookup of a name of the index whose file loads opens that
    file and returns what the normalizer makes of the file's [lret];
    nothing of the load is kept, so the same lookup again opens the
    file again. *)
Theorem get_data_returns_normalized E st m st1 name filepath call_info lret :
  _name_source_map E st = (Ok m, st1) ->
  m !! name = Some filepath ->
  load_result E filepath = Ok (call_info, lret) ->
  get_data E name st = (EveNormalizer_run E lret, extend [EOpen filepath] st1)
  /\ get_data E name (extend [EOpen filepath] st1)
     = (EveNormalizer_run E lret, extend [EOpen filepath; EOpen filepath] st1).
Proof.
  intros Hmap Hname Hload.
  pose proof (cached_after E _ _ _ Hmap) as Hc. split.
  - unfold get_data, __read_cache_file. by rewrite Hmap, Hname, Hload.
  - unfold get_data, __read_cache_file.
    rewrite (built E (extend [EOpen filepath] st1) m Hc), Hname, Hload.
    by rewrite log_extend, extend_extend.
Qed.

Lemma get_data_returns_normalized_witness :
  fst (get_data (Demo.world Demo.twins) "svcX(1)_callY(z)_a" Demo.fresh) = Ok (PInt 7).
Proof.
  pose proof (get_data_returns_normalized (Demo.world Demo.twins) Demo.fresh
                (finalize (add_all (keyed (Demo.world Demo.twins)
                   (fs_glob (Demo.world Demo.twins) (glob_pattern Demo.fresh))) []))
                (snd (_name_source_map (Demo.world Demo.twins) Demo.fresh))
                "svcX(1)_callY(z)_a" (Demo.dir "a.cache")
                (PTuple [PTuple [PStr "svcX"; PInt 1]; PStr "callY"; PStr "z"]) (PInt 7)
                eq_refl eq_refl eq_refl) as [H _].
  rewrite H. reflexivity.
Defined.

(** X4. The names [contname_iter] yields are exactly the names a
    lookup accepts: for such a name [get_data] goes on to open a file,
    for any other name it raises [ContainerNameError] and opens none. *)
Theorem listed_names_are_fetchable E st names st1 name :
  contname_iter E st = (Ok names, st1) ->
  (In name names <->
     exists filepath, snd (get_data E name st1) = extend [EOpen filepath] st1)
  /\ (~ In name names ->
      get_data E name st1 = (Raise (ContainerNameError (unavailable_msg name)), st1)).
Proof.
  unfold contname_iter.
  destruct (_name_source_map E st) as [[m|e] st'] eqn:Hmap; [|done].
  intros [= <- <-].
  pose proof (cached_after E _ _ _ Hmap) as Hc.
  destruct (names_of_spec m) as (_ & _ & Hin & _).
  assert (Hget : forall name,
    get_data E name st' =
    match m !! name with
    | None => (Raise (ContainerNameError (unavailable_msg name)), st')
    | Some filepath =>
        match __read_cache_file E filepath st' with
        | (Raise e, st) => (Raise e, st)
        | (Ok (_, call_data), st) => (EveNormalizer_run E call_data, st)
        end
    end).
  { intros n. unfold get_data. by rewrite (built E st' m Hc). }
  rewrite Hin, Hget. split.
  - split.
    + intros [filepath Hp]. rewrite Hp. exists filepath. unfold __read_cache_file.
      by destruct (load_result E filepath) as [[ci cd]|e].
    + intros [filepath Hp]. destruct (m !! name) as [q|]; [done|].
      simpl in Hp. symmetry in Hp. by apply extend_cons_ne in Hp.
  - intros Hnot. destruct (m !! name) as [q|] eqn:Hq; [|done].
    destruct Hnot. done.
Qed.

Lemma listed_names_are_fetchable_witness :
  let E := Demo.world Demo.twins in
  let st1 := snd (contname_iter E Demo.fresh) in
  get_data E "svcX(1)_callY(z)" st1
  = (Raise (ContainerNameError (unavailable_msg "svcX(1)_callY(z)")), st1).
Proof.
  intros E st1.
  apply (listed_names_are_fetchable E Demo.fresh
           ["svcX(1)_callY(z)_a"; "svcX(1)_callY(z)_b"] st1 "svcX(1)_callY(z)").
  - vm_compute. reflexivity.
  - simpl. intros [H|[H|[]]]; discriminate H.
Defined.

(** ** Which records get a name *)

(** A dictionary for a record: indexing it finds a key equal to
    zero, and then slicing fails, or finds none. *)
Lemma safe_call_name_dict E d :
  safe_call_name E (PDict d)
  = Raise (if existsb (fun kv => key_is_zero (fst kv)) d then TypeError else KeyError).
Proof.
  unfold safe_call_name. simpl.
  induction d as [|[k v] d IH]; simpl; [done|].
  destruct (key_is_zero k); [done | exact IH].
Qed.

(** X5. The derivation of a name fails in these cases only, each
    with one error: a tuple or list record that lacks a head or a call
    name, or whose head is an empty sequence, raises [IndexError], and
    so does a text record of fewer than two characters; a dictionary
    raises [KeyError] when none of its keys equals zero, and
    [TypeError], from the slice, when one does; [None] and a number
    raise [TypeError].  Every other record gets a name. *)
Theorem safe_call_name_failures E :
  (forall items,
     if decomposes items
     then (exists K, safe_call_name E (PTuple items) = Ok K)
          /\ (exists K, safe_call_name E (PList items) = Ok K)
     else safe_call_name E (PTuple items) = Raise IndexError
          /\ safe_call_name E (PList items) = Raise IndexError)
  /\ (forall s,
        if (2 <=? String.length s)%nat
        then exists K, safe_call_name E (PStr s) = Ok K
        else safe_call_name E (PStr s) = Raise IndexError)
  /\ (forall d,
        safe_call_name E (PDict d)
        = Raise (if existsb (fun kv => key_is_zero (fst kv)) d then TypeError else KeyError))
  /\ safe_call_name E PNone = Raise TypeError
  /\ (forall z, safe_call_name E (PInt z) = Raise TypeError)
  /\ (forall b, safe_call_name E (PBool b) = Raise TypeError)
  /\ (forall bits, safe_call_name E (PFloat bits) = Raise TypeError).
Proof.
  split; [|split; [|split; [|done]]].
  - intros [|h [|c args]].
    + done.
    + by destruct h as [| | |[|n a]|[|n a]| | |].
    + destruct h as [| | |[|n a]|[|n a]| | |]; simpl; split; try done; by eexists.
  - intros [|a [|b s]]; simpl; [done..|]. by eexists.
  - apply safe_call_name_dict.
Qed.

(** X6. The name does not tell tuples from lists: a record gets the
    same name, or fails the same way, as a tuple and as a list, and
    with its head a tuple and a list. *)
Theorem safe_call_name_sequence_kind E items args rest :
  safe_call_name E (PList items) = safe_call_name E (PTuple items)
  /\ safe_call_name E (PTuple (PList args :: rest))
     = safe_call_name E (PTuple (PTuple args :: rest)).
Proof.
  split.
  - destruct items as [|h [|c l]]; [done| |].
    + by destruct h as [| | |[|n a]|[|n a]| | |].
    + by destruct h as [| | |[|n a]|[|n a]| | |].
  - by destruct args as [|n a], rest as [|c l].
Qed.

(** ** Which files load *)

(** X7. [__read_cache_file] returns for exactly the files that can be
    read and whose bytes unmarshal into a tuple or list of two
    elements, the second a dictionary with the key [lret]; it returns
    the first element and the value under [lret], and its one effect
    is to open the file. *)
Theorem read_cache_file_returns E filepath call_info lret st :
  __read_cache_file E filepath st = (Ok (call_info, lret), extend [EOpen filepath] st)
  <-> exists filedata d,
        fs_read E filepath = Ok filedata
        /\ (marshal_Load E filedata = Ok (PTuple [call_info; PDict d])
            \/ marshal_Load E filedata = Ok (PList [call_info; PDict d]))
        /\ dict_get "lret" d = Some lret.
Proof.
  unfold __read_cache_file, load_result. rewrite log_extend. split.
  - intros [= H].
    destruct (fs_read E filepath) as [filedata|e]; [|done]. simpl in H.
    destruct (marshal_Load E filedata) as [loaded|e] eqn:Hload; [|done]. simpl in H.
    exists filedata.
    assert (Hd : forall a b, rbind (getitem_str b "lret") (fun x => Ok (a, x))
                             = Ok (call_info, lret) ->
                 a = call_info /\ exists d, b = PDict d /\ dict_get "lret" d = Some lret).
    { intros a b Hab. destruct b as [| | | | |d| |]; try done. simpl in Hab.
      destruct (dict_get "lret" d) as [x|] eqn:Hx; [|done].
      injection Hab as -> ->. eauto. }
    destruct loaded as [| |s|l|l|d| |]; try done.
    + by destruct s as [|a [|b [|c s]]].
    + destruct l as [|a [|b [|c l]]]; try done.
      apply Hd in H as (-> & d & -> & Hl). eauto.
    + destruct l as [|a [|b [|c l]]]; try done.
      apply Hd in H as (-> & d & -> & Hl). eauto.
    + destruct d as [|[k1 v1] [|[k2 v2] [|kv d]]]; try done.
      simpl in H. by destruct k2.
  - intros (filedata & d & Hr & Hm & Hl). rewrite Hr. simpl.
    destruct Hm as [Hm|Hm]; rewrite Hm; simpl; by rewrite Hl.
Qed.

(** ** A dictionary for a record *)

(** X8. When the scan of an unbuilt index comes to a file whose
    record is a dictionary, the build ends in an error.  With no key
    equal to zero in the dictionary it is the [KeyError] of indexing
    it: [contname_iter] raises that [KeyError], but [get_data], whose
    handler of [KeyError] encloses the access to the index, raises
    [ContainerNameError] for whatever name is asked.  With such a key
    it is the [TypeError] of the slice, which both raise. *)
Theorem dictionary_record_reads_as_unavailable E st pre p post d lret name :
  __name_source_map st = None ->
  fs_glob E (glob_pattern st) = (pre ++ p :: post)%list ->
  forallb (benign E) pre = true ->
  load_result E p = Ok (PDict d, lret) ->
  let st' := extend (EGlob (glob_pattern st) :: scan_events E pre ++ [EOpen p]) st in
  (if existsb (fun kv => key_is_zero (fst kv)) d
   then contname_iter E st = (Raise TypeError, st')
        /\ get_data E name st = (Raise TypeError, st')
   else contname_iter E st = (Raise KeyError, st')
        /\ get_data E name st = (Raise (ContainerNameError (unavailable_msg name)), st'))
  /\ __name_source_map st' = None.
Proof.
  intros Hnone Hglob Hpre Hload st'.
  pose proof (safe_call_name_dict E d) as Hname.
  assert (Hmap : forall e, safe_call_name E (PDict d) = Raise e ->
                           _name_source_map E st = (Raise e, st')).
  { intros e He.
    assert (Hc : classify E p = Aborts e) by (unfold classify; by rewrite Hload, He).
    unfold _name_source_map. rewrite Hnone, Hglob.
    rewrite (scan_aborts E pre p post e) by done.
    by rewrite log_extend, extend_extend. }
  split; [|done].
  destruct (existsb (fun kv => key_is_zero (fst kv)) d);
    unfold contname_iter, get_data; by rewrite (Hmap _ Hname).
Qed.

Lemma dictionary_record_reads_as_unavailable_witness :
  fst (contname_iter (Shapes.world Shapes.with_dict) Demo.fresh) = Raise KeyError
  /\ fst (get_data (Shapes.world Shapes.with_dict) "svc(x y)_call()" Demo.fresh)
     = Raise (ContainerNameError (unavailable_msg "svc(x y)_call()"))
  /\ fst (get_data (Shapes.world Shapes.with_zero_key) "svc(x y)_call()" Demo.fresh)
     = Raise TypeError.
Proof.
  destruct (dictionary_record_reads_as_unavailable
              (Shapes.world Shapes.with_dict) Demo.fresh
              [Demo.dir "g.cache"] (Demo.dir "d.cache") []
              [(KStr "svc", PStr "call")] PNone "svc(x y)_call()"
              eq_refl eq_refl eq_refl eq_refl) as ((H1 & H2) & _).
  destruct (dictionary_record_reads_as_unavailable
              (Shapes.world Shapes.with_zero_key) Demo.fresh
              [Demo.dir "g.cache"] (Demo.dir "z.cache") []
              [(KFloat 0, PStr "svc")] PNone "svc(x y)_call()"
              eq_refl eq_refl eq_refl eq_refl) as ((_ & H3) & _).
  rewrite H1, H2, H3. repeat split.
Defined.

(** ** The intermediate map *)

Lemma classify_named E p K : classify E p = Keyed K <-> named E p K.
Proof.
  unfold classify, named. split.
  - destruct (load_result E p) as [[call_info lret]|e]; [|by destruct (is_interrupt e)].
    destruct (safe_call_name E call_info) as [name|e] eqn:Hn; [|done].
    intros [= ->]. eauto.
  - intros (call_info & lret & -> & ->). done.
Qed.

(** X9. The map the first loop builds has one item for each name
    some file got, and under a name the files that got it, each once:
    no item is empty, no name has two items. *)
Theorem scan_groups_files_by_name E paths sm st st' :
  scan E paths [] st = (Ok sm, st') ->
  List.NoDup (map fst sm)
  /\ (forall K fps, In (K, fps) sm ->
        fps <> [] /\ List.NoDup fps
        /\ forall p, In p fps <-> In p paths /\ named E p K)
  /\ (forall p K, In p paths -> named E p K -> exists fps, In (K, fps) sm /\ In p fps).
Proof.
  intros Hscan. pose proof (scan_Ok_benign E _ _ _ _ _ Hscan) as Hb.
  rewrite (scan_benign E paths [] st Hb) in Hscan. injection Hscan as <- _.
  split; [apply keys_add_all_NoDup; constructor|]. split.
  - intros K fps [-> [q Hq]]%add_all_item. split; [|split].
    + intros Hnil. apply group_In in Hq. rewrite Hnil in Hq. done.
    + apply group_NoDup.
    + intros p. by rewrite group_In, in_keyed, classify_named.
  - intros p K Hp HK. exists (group (keyed E paths) K).
    assert (Hin : In (K, p) (keyed E paths)).
    { apply in_keyed. by rewrite classify_named. }
    split; [apply add_all_item; eauto | by apply group_In].
Qed.

Lemma scan_groups_files_by_name_witness :
  List.NoDup (map fst [("svcX(1)_callY(z)", [Demo.dir "a.cache"; Demo.dir "b.cache"])]).
Proof.
  exact (proj1 (scan_groups_files_by_name (Demo.world Demo.twins)
                  [Demo.dir "a.cache"; Demo.dir "b.cache"] _ Demo.fresh _ eq_refl)).
Defined.

(** ** What the index holds in any case *)

Lemma fold_assign_size l m0 : (size (fold_left assign l m0) <= size m0 + length l)%nat.
Proof.
  revert m0. induction l as [|[n p] l IH]; intros m0; simpl; [lia|].
  specialize (IH (assign m0 (n, p))). unfold assign in *. simpl in *.
  destruct (m0 !! n) eqn:Hn.
  - rewrite map_size_insert_Some in IH by done. lia.
  - rewrite map_size_insert_None in IH by done. lia.
Qed.

Lemma assignments_length sm : length (assignments sm) = length (flat_map snd sm).
Proof.
  unfold assignments. induction sm as [|[K fps] sm IH]; simpl; [done|].
  by rewrite !length_app, length_map, IH.
Qed.

Lemma set_add_length p s : (length (set_add p s) <= S (length s))%nat.
Proof.
  unfold set_add. destruct (existsb _ s); [lia|]. rewrite length_app. simpl. lia.
Qed.

Lemma setdefault_add_length k p sm :
  (length (flat_map snd (setdefault_add k p sm)) <= S (length (flat_map snd sm)))%nat.
Proof.
  induction sm as [|[k0 f0] sm IH]; simpl; [lia|].
  destruct (String.eqb k k0); simpl; rewrite !length_app.
  - pose proof (set_add_length p f0). lia.
  - lia.
Qed.

Lemma add_all_length entries sm :
  (length (flat_map snd (add_all entries sm))
   <= length (flat_map snd sm) + length entries)%nat.
Proof.
  revert sm. induction entries as [|[k p] entries IH]; intros sm; simpl; [lia|].
  change (add_all ((k, p) :: entries) sm) with (add_all entries (setdefault_add k p sm)).
  specialize (IH (setdefault_add k p sm)).
  pose proof (setdefault_add_length k p sm). lia.
Qed.

Lemma keyed_length_le E paths : (length (keyed E paths) <= length paths)%nat.
Proof.
  induction paths as [|p rest IH]; simpl; [lia|].
  destruct (classify E p); simpl; lia.
Qed.

(** X10. Whatever the file names, every entry of a freshly built
    index maps a name to a listed file that loaded, and the name is
    the name that file's record got, bare or followed by an underscore
    and the file's name without extension; the index has no more
    entries than files were listed. *)
Theorem index_entries_are_loaded_files E st m st' :
  __name_source_map st = None ->
  _name_source_map E st = (Ok m, st') ->
  (forall n p, m !! n = Some p ->
     In p (fs_glob E (glob_pattern st))
     /\ exists K, named E p K /\ (n = K \/ n = suffixed K p))
  /\ (size m <= length (fs_glob E (glob_pattern st)))%nat.
Proof.
  intros Hnone Hmap.
  destruct (build_result E st Hnone m st' Hmap) as (_ & -> & _).
  remember (fs_glob E (glob_pattern st)) as paths eqn:Hpaths. clear Hpaths.
  rewrite finalize_assignments. split.
  - intros n p [H|H]%fold_assign_sound; [|by rewrite lookup_empty in H].
    apply In_assignments in H as (K & fps & [-> _]%add_all_item & Hp & ->).
    apply group_In, in_keyed in Hp as [Hp HK]. split; [done|].
    exists K. split; [by apply classify_named|].
    unfold name_for. destruct (1 <? _)%nat; auto.
  - pose proof (fold_assign_size (assignments (add_all (keyed E paths) [])) ∅) as H1.
    rewrite map_size_empty, assignments_length in H1.
    pose proof (add_all_length (keyed E paths) []) as H2. simpl in H2.
    pose proof (keyed_length_le E paths). lia.
Qed.

Lemma index_entries_are_loaded_files_witness :
  let E := Demo.world Demo.clash in
  (size (finalize (add_all (keyed E (fs_glob E (glob_pattern Demo.fresh))) [])) <= 3)%nat.
Proof.
  intros E.
  exact (proj2 (index_entries_are_loaded_files E Demo.fresh _ _ eq_refl eq_refl)).
Defined.

(** ** The names, whatever the order of the listing *)

Lemma fold_assign_dom l m0 n :
  is_Some (fold_left assign l m0 !! n)
  <-> (exists p, In (n, p) l) \/ is_Some (m0 !! n).
Proof.
  revert m0. induction l as [|[n1 p1] l IH]; intros m0; simpl.
  - split; [auto | intros [[p []]|H]; done].
  - rewrite IH. unfold assign. simpl. split.
    + intros [[p Hp]|H]; [eauto|].
      destruct (decide (n1 = n)) as [->|Hne]; [eauto|].
      rewrite lookup_insert_ne in H by done. auto.
    + intros [[p [Hp|Hp]]|H]; [|eauto|].
      * injection Hp as -> ->. right. by rewrite lookup_insert_eq.
      * right. destruct (decide (n1 = n)) as [->|Hne].
        -- by rewrite lookup_insert_eq.
        -- by rewrite lookup_insert_ne.
Qed.

(** The names of the finished map are the final names of the files
    that were loaded and named, whatever the file names. *)
Lemma finalize_names entries n :
  is_Some (finalize (add_all entries []) !! n)
  <-> exists K p, In (K, p) entries /\ n = final_name entries K p.
Proof.
  rewrite finalize_assignments, fold_assign_dom. split.
  - intros [[p H]|H]; [|rewrite lookup_empty in H; by destruct H].
    apply In_assignments in H as (K & fps & [-> _]%add_all_item & Hp & ->).
    exists K, p. split; [by apply group_In | done].
  - intros (K & p & Hin & ->). left. exists p.
    apply In_assignments. exists K, (group entries K).
    split; [apply add_all_item; eauto|]. split; [by apply group_In | done].
Qed.

Lemma names_of_ext (m1 m2 : gmap string string) :
  (forall n, is_Some (m1 !! n) <-> is_Some (m2 !! n)) -> names_of m1 = names_of m2.
Proof.
  intros Hext. unfold names_of. apply sorted_unique.
  apply Permutation.NoDup_Permutation.
  - apply NoDup_ListNoDup, (NoDup_fst_map_to_list m1).
  - apply NoDup_ListNoDup, (NoDup_fst_map_to_list m2).
  - intros n.
    assert (Hkeys : forall m : gmap string string,
              In n (map fst (map_to_list m)) <-> is_Some (m !! n)).
    { intros m. rewrite in_map_iff. split.
      - intros ([n' p] & <- & Hin).
        apply list_elem_of_In, elem_of_map_to_list in Hin. by exists p.
      - intros [p Hp]. exists (n, p). split; [done|].
        by apply list_elem_of_In, elem_of_map_to_list. }
    by rewrite !Hkeys.
Qed.

(** X11. The names [contname_iter] yields do not depend on the order
    in which the directory is listed, whatever the file names: only
    the file behind a name can. *)
Theorem names_independent_of_order E g st names st1 :
  (forall pattern, Permutation (g pattern) (fs_glob E pattern)) ->
  contname_iter E st = (Ok names, st1) ->
  exists st2, contname_iter (with_glob g E) st = (Ok names, st2).
Proof.
  intros Hperm. unfold contname_iter.
  destruct (_name_source_map E st) as [[m|e] st'] eqn:Hmap; [|done].
  intros [= <- <-].
  destruct (__name_source_map st) as [m0|] eqn:Hcache.
  - rewrite (built E st m0 Hcache) in Hmap. injection Hmap as <- <-.
    exists st. by rewrite (built (with_glob g E) st m0 Hcache).
  - destruct (build_result E st Hcache m st' Hmap) as (Hb & -> & _).
    specialize (Hperm (glob_pattern st)).
    assert (Hb' : forallb (benign (with_glob g E))
                    (fs_glob (with_glob g E) (glob_pattern st)) = true).
    { apply forallb_forall. intros p Hp. rewrite forallb_forall in Hb.
      apply (Hb p). by apply (Permutation_in _ Hperm). }
    rewrite (build_benign (with_glob g E) st Hcache Hb').
    eexists. f_equal. f_equal.
    change (fs_glob (with_glob g E) (glob_pattern st)) with (g (glob_pattern st)).
    change (keyed (with_glob g E) (g (glob_pattern st)))
      with (keyed E (g (glob_pattern st))).
    assert (Hext : forall K q, In (K, q) (keyed E (g (glob_pattern st)))
                               <-> In (K, q) (keyed E (fs_glob E (glob_pattern st)))).
    { intros K q. rewrite !in_keyed. split; intros [Hq Hc]; split; try done.
      - by apply (Permutation_in _ Hperm).
      - by apply (Permutation_in q (Permutation_sym Hperm)). }
    apply names_of_ext. intros n. rewrite !finalize_names.
    split; intros (K & p & Hin & ->); exists K, p; (split; [by apply Hext|]).
    + symmetry. by apply final_name_ext.
    + by apply final_name_ext.
Qed.

Lemma names_independent_of_order_witness :
  let E := Demo.world Demo.clash in
  exists st2,
    contname_iter (with_glob (fun pattern => rev (fs_glob E pattern)) E) Demo.fresh
    = (Ok ["a()_b()_x)"; "a()_b()_y"], st2).
Proof.
  intros E.
  apply (names_independent_of_order E (fun pattern => rev (fs_glob E pattern))
           Demo.fresh _ (snd (contname_iter E Demo.fresh))).
  - intros pattern. apply Permutation_sym, Permutation_rev.
  - vm_compute. reflexivity.
Defined.

(** ** Files that fail to load leave no mark *)

(** X12. The files whose load fails leave no mark on the index: over
    the directory without them the same map is built. *)
Theorem failed_files_leave_no_mark E st m st1 :
  __name_source_map st = None ->
  _name_source_map E st = (Ok m, st1) ->
  exists st2,
    _name_source_map
      (with_glob (fun pattern => List.filter (loads E) (fs_glob E pattern)) E) st
    = (Ok m, st2).
Proof.
  intros Hnone Hmap.
  destruct (build_result E st Hnone m st1 Hmap) as (Hb & -> & _).
  destruct (keyed_loads E _ Hb) as [Hk Hb'].
  set (E' := with_glob (fun pattern => List.filter (loads E) (fs_glob E pattern)) E).
  eexists. rewrite (build_benign E' st Hnone Hb'). f_equal. f_equal.
  change (keyed E' (fs_glob E' (glob_pattern st)))
    with (keyed E (List.filter (loads E) (fs_glob E (glob_pattern st)))).
  by rewrite Hk.
Qed.

Lemma failed_files_leave_no_mark_witness :
  let E := Demo.world Demo.mixed in
  exists st2,
    _name_source_map
      (with_glob (fun pattern => List.filter (loads E) (fs_glob E pattern)) E) Demo.fresh
    = (Ok (finalize (add_all (keyed E (fs_glob E (glob_pattern Demo.fresh))) [])), st2).
Proof.
  intros E.
  apply (failed_files_leave_no_mark E Demo.fresh _
           (snd (_name_source_map E Demo.fresh)) eq_refl).
  vm_compute. reflexivity.
Defined.

(** ** A build that raises *)

Lemma globs_app a b : globs (a ++ b) = (globs a + globs b)%nat.
Proof. unfold globs. by rewrite List.filter_app, length_app. Qed.

(** What the first loop returns does not depend on the state, and it
    lists no directory. *)
Lemma scan_shape E paths sm :
  exists r evs, (forall st, scan E paths sm st = (r, extend evs st)) /\ globs evs = 0%nat.
Proof.
  revert sm. induction paths as [|p rest IH]; intros sm.
  - exists (Ok sm), []. split; [|done]. intros st. simpl. by rewrite extend_nil.
  - destruct (classify E p) as [name|e|e] eqn:Hc.
    + destruct (IH (setdefault_add name p sm)) as (r & evs & Hscan & Hg).
      exists r, ([EOpen p] ++ evs)%list. split; [|by rewrite globs_app, Hg].
      intros st. by rewrite scan_cons, Hc, Hscan, extend_extend.
    + destruct (IH sm) as (r & evs & Hscan & Hg).
      exists r, ([EOpen p; skip_notice p] ++ evs)%list.
      split; [|by rewrite globs_app, Hg].
      intros st. by rewrite scan_cons, Hc, Hscan, extend_extend.
    + exists (Raise e), [EOpen p]. split; [|done].
      intros st. by rewrite scan_cons, Hc.
Qed.

(** X13. A build that raises caches nothing: the index is still
    unbuilt, and the next access lists the directory and scans again,
    ending, over the same files, in the same error. *)
Theorem failed_build_is_retried E st e st' :
  __name_source_map st = None ->
  _name_source_map E st = (Raise e, st') ->
  __name_source_map st' = None
  /\ globs (trace st') = S (globs (trace st))
  /\ exists st'',
       _name_source_map E st' = (Raise e, st'')
       /\ globs (trace st'') = S (globs (trace st')).
Proof.
  intros Hnone. unfold _name_source_map at 1. rewrite Hnone.
  destruct (scan_shape E (fs_glob E (glob_pattern st)) []) as (r & evs & Hscan & Hg).
  rewrite Hscan, log_extend, extend_extend. destruct r as [sm|e']; [done|].
  intros [= -> <-].
  assert (Hglobs : forall s, globs (trace (extend ([EGlob (glob_pattern st)] ++ evs) s))
                             = S (globs (trace s))).
  { intros s. simpl. rewrite globs_app.
    change (globs (EGlob (glob_pattern st) :: evs)) with (S (globs evs)).
    rewrite Hg. lia. }
  split; [done|]. split; [apply Hglobs|].
  eexists. split.
  - unfold _name_source_map. simpl. rewrite Hnone.
    change (glob_pattern (extend _ st)) with (glob_pattern st).
    rewrite Hscan, log_extend, extend_extend. reflexivity.
  - apply Hglobs.
Qed.

Lemma failed_build_is_retried_witness :
  let E := Shapes.world Shapes.retried in
  exists st'',
    _name_source_map E (snd (_name_source_map E Demo.fresh))
    = (Raise KeyboardInterrupt, st'')
    /\ globs (trace st'') = S (globs (trace (snd (_name_source_map E Demo.fresh)))).
Proof.
  intros E.
  exact (proj2 (proj2 (failed_build_is_retried E Demo.fresh KeyboardInterrupt
                         (snd (_name_source_map E Demo.fresh)) eq_refl eq_refl))).
Defined.

(** ** What a build reads and prints *)

Lemma opens_app a b : opens (a ++ b) = (opens a ++ opens b)%list.
Proof. apply flat_map_app. Qed.

Lemma prints_app a b : prints (a ++ b) = (prints a ++ prints b)%list.
Proof. apply flat_map_app. Qed.

Lemma opens_scan_events E paths : opens (scan_events E paths) = paths.
Proof.
  induction paths as [|p rest IH]; [done|]. simpl.
  destruct (classify E p); simpl; by rewrite IH.
Qed.

Lemma globs_scan_events E paths : globs (scan_events E paths) = 0%nat.
Proof.
  induction paths as [|p rest IH]; [done|]. simpl.
  destruct (classify E p); exact IH.
Qed.

Lemma prints_scan_events E paths :
  forallb (benign E) paths = true ->
  prints (scan_events E paths)
  = map (fun p => "  unable to load cache file " +:+ os_path.basename p)
        (List.filter (load_fails E) paths).
Proof.
  induction paths as [|p rest IH]; [done|]. simpl.
  intros [Hp Hrest]%andb_true_iff. unfold benign in Hp.
  unfold load_fails at 1. unfold classify in *.
  destruct (load_result E p) as [[call_info lret]|e].
  - destruct (safe_call_name E call_info); [|done]. simpl. by apply IH.
  - destruct (is_interrupt e); [done|]. simpl. by rewrite IH.
Qed.

(** X14. A build that returns has listed the directory once, opened
    each listed file once, in the order of the listing, and printed
    one notice, with the file's base name, for each file whose load
    failed, in that order; it has opened and printed nothing else. *)
Theorem build_reads_each_file_once E st m st' :
  __name_source_map st = None ->
  _name_source_map E st = (Ok m, st') ->
  let paths := fs_glob E (glob_pattern st) in
  opens (trace st') = (opens (trace st) ++ paths)%list
  /\ prints (trace st')
     = (prints (trace st)
        ++ map (fun p => "  unable to load cache file " +:+ os_path.basename p)
               (List.filter (load_fails E) paths))%list
  /\ globs (trace st') = S (globs (trace st)).
Proof.
  intros Hnone Hmap paths.
  destruct (build_result E st Hnone m st' Hmap) as (Hb & _ & ->). simpl.
  fold paths in Hb |- *.
  change (EGlob (glob_pattern st) :: scan_events E paths)
    with ([EGlob (glob_pattern st)] ++ scan_events E paths)%list.
  rewrite !opens_app, !prints_app, !globs_app, opens_scan_events,
    prints_scan_events by done.
  split; [done|]. split; [done|].
  rewrite globs_scan_events.
  change (globs [EGlob (glob_pattern st)]) with 1%nat. lia.
Qed.

Lemma build_reads_each_file_once_witness :
  let E := Demo.world Demo.mixed in
  opens (trace (snd (_name_source_map E Demo.fresh)))
  = [Demo.dir "bad.cache"; Demo.dir "a.cache"; Demo.dir "gone.cache"; Demo.dir "nolret.cache"]
  /\ prints (trace (snd (_name_source_map E Demo.fresh)))
     = ["  unable to load cache file bad.cache";
        "  unable to load cache file gone.cache";
        "  unable to load cache file nolret.cache"].
Proof.
  intros E.
  destruct (build_reads_each_file_once E Demo.fresh _
              (snd (_name_source_map E Demo.fresh)) eq_refl eq_refl) as (H1 & H2 & _).
  split; [exact H1 | exact H2].
Defined.

(** ** The suffix of a cache file *)

(** X15. For the file [x.cache] of a directory the name that settles
    a collision is the safe call name, an underscore, and [x], when
    [x] has no slash and a character that is no dot; dots inside [x]
    stay. *)
Theorem suffix_of_cache_file K dir x :
  has_char slash x = false ->
  all_dots x = false ->
  suffixed K (dir +:+ "/" +:+ x +:+ ".cache") = K +:+ "_" +:+ x.
Proof. intros Hs Hd. unfold suffixed. by rewrite file_stem_cache. Qed.

Lemma suffix_of_cache_file_witness :
  suffixed "svc()_call()" ("/cache/CachedMethodCalls" +:+ "/" +:+ "1f.2e" +:+ ".cache")
  = "svc()_call()_1f.2e".
Proof.
  exact (suffix_of_cache_file "svc()_call()" "/cache/CachedMethodCalls" "1f.2e"
           eq_refl eq_refl).
Defined.

(** ** The directory of a new object *)

Lemma ends_with_slash_app s c t :
  ends_with_slash (s +:+ String c t) = ends_with_slash (String c t).
Proof.
  induction s as [|a s IH]; [done|].
  rewrite app_cons.
  change (ends_with_slash (String a (s +:+ String c t)))
    with (match s +:+ String c t with
          | EmptyString => Ascii.eqb a slash
          | String _ _ => ends_with_slash (s +:+ String c t)
          end).
  destruct s as [|b s']; [done|]. rewrite app_cons in *. exact IH.
Qed.

Lemma length_app_cons s c t : (String.length (s +:+ String c t) =? 0)%nat = false.
Proof. destruct s; reflexivity. Qed.

Lemma join_relative a c b :
  a <> "" -> ends_with_slash a = false -> Ascii.eqb c slash = false ->
  os_path.join a (String c b) = a +:+ String slash (String c b).
Proof.
  intros Ha Hslash Hc. unfold os_path.join. rewrite Hc, Hslash.
  destruct a as [|x a]; [done|]. reflexivity.
Qed.

(** X16. [__init__] raises what the library raises when asked for
    the cache manager's path, and then there is no object.  Otherwise
    the new object has no index yet and has so far only called the
    library; and when that path is not empty and does not end in a
    slash, the next thing the first access to the index does is list
    the path followed by [/CachedMethodCalls/*.cache]. *)
Theorem new_object blue_EVE E path_eve path_cache server :
  (forall e, blue_EVE path_eve path_cache server = Raise e ->
             __init__ blue_EVE path_eve path_cache server = Raise e)
  /\ (forall machocachepath,
        blue_EVE path_eve path_cache server = Ok machocachepath ->
        exists st,
          __init__ blue_EVE path_eve path_cache server = Ok st
          /\ __name_source_map st = None
          /\ trace st = [EEve path_eve path_cache server]
          /\ (machocachepath <> "" -> ends_with_slash machocachepath = false ->
              glob_pattern st = machocachepath +:+ "/CachedMethodCalls/*.cache"
              /\ exists evs,
                   trace (snd (_name_source_map E st))
                   = (EEve path_eve path_cache server
                      :: EGlob (machocachepath +:+ "/CachedMethodCalls/*.cache")
                      :: evs)%list)).
Proof.
  unfold __init__. split; [by intros e ->|].
  intros machocachepath ->. eexists. split; [reflexivity|].
  split; [done|]. split; [done|]. intros Hne Hslash.
  assert (Hpat : glob_pattern (init machocachepath)
                 = machocachepath +:+ "/CachedMethodCalls/*.cache").
  { unfold glob_pattern, init. cbn [path_cachedcalls].
    rewrite (join_relative machocachepath "C" "achedMethodCalls") by done.
    rewrite join_relative.
    - by rewrite app_assoc'.
    - by destruct machocachepath.
    - by rewrite ends_with_slash_app.
    - done. }
  split; [exact Hpat|].
  unfold _name_source_map. cbn [__name_source_map init log].
  change (glob_pattern (log _ (init machocachepath)))
    with (glob_pattern (init machocachepath)).
  destruct (scan_shape E (fs_glob E (glob_pattern (init machocachepath))) [])
    as (r & evs & Hscan & _).
  rewrite Hscan, !log_extend, !extend_extend, Hpat.
  exists evs. by destruct r.
Qed.

Lemma new_object_witness :
  exists st,
    __init__ (fun _ path_cache _ => Ok (path_cache +:+ "/Machonet/host/1"))
      "/eve" "/cache" "Tranquility" = Ok st
    /\ glob_pattern st = "/cache/Machonet/host/1/CachedMethodCalls/*.cache".
Proof.
  destruct (proj2 (new_object (fun _ path_cache _ => Ok (path_cache +:+ "/Machonet/host/1"))
                     (Demo.world []) "/eve" "/cache" "Tranquility")
              "/cache/Machonet/host/1" eq_refl)
    as (st & Hinit & _ & _ & Hpat).
  exists st. split; [exact Hinit|].
  apply Hpat; [discriminate | reflexivity].
Defined.

(** ** Names that do not collide *)

(** X17. When no two listed files get the same name, a freshly built
    index maps each name to the one file that got it and holds
    nothing else, whatever the files are called: no suffix is used. *)
Theorem index_of_distinct_names E st m st' :
  __name_source_map st = None ->
  _name_source_map E st = (Ok m, st') ->
  (forall K p q, In p (fs_glob E (glob_pattern st)) -> In q (fs_glob E (glob_pattern st)) ->
                 named E p K -> named E q K -> p = q) ->
  forall n p, m !! n = Some p <-> In p (fs_glob E (glob_pattern st)) /\ named E p n.
Proof.
  intros Hnone Hmap Hdist.
  destruct (build_result E st Hnone m st' Hmap) as (_ & -> & _).
  remember (fs_glob E (glob_pattern st)) as paths eqn:Hpaths. clear Hpaths.
  assert (Hbare : forall K p, In (K, p) (keyed E paths) ->
                    final_name (keyed E paths) K p = K).
  { intros K p Hin. unfold final_name, name_for.
    destruct (1 <? length (group (keyed E paths) K))%nat eqn:Hl; [|done].
    apply Nat.ltb_lt in Hl.
    assert (length (group (keyed E paths) K) <= 1)%nat; [|lia].
    apply length_le1; [apply group_NoDup|].
    intros x y [Hx Hcx]%group_In%in_keyed [Hy Hcy]%group_In%in_keyed.
    apply (Hdist K); by try apply classify_named. }
  intros n p. rewrite <- classify_named, <- in_keyed, finalize_assignments. split.
  - intros [H|H]%fold_assign_sound; [|by rewrite lookup_empty in H].
    apply In_assignments in H as (K & fps & [-> _]%add_all_item & Hp%group_In & ->).
    fold (final_name (keyed E paths) K p). by rewrite Hbare.
  - intros Hin. apply fold_assign_complete.
    + intros q Hq.
      apply In_assignments in Hq as (K & fps & [-> _]%add_all_item & Hq%group_In & Heq).
      fold (final_name (keyed E paths) K q) in Heq. rewrite Hbare in Heq by done.
      subst K. apply in_keyed in Hin as [Hp Hcp]. apply in_keyed in Hq as [Hq Hcq].
      apply (Hdist n); by try apply classify_named.
    + apply In_assignments. exists n, (group (keyed E paths) n).
      split; [apply add_all_item; eauto|]. split; [by apply group_In|].
      fold (final_name (keyed E paths) n p). by rewrite Hbare.
Qed.

Lemma index_of_distinct_names_witness :
  let E := Demo.world Demo.mixed in
  finalize (add_all (keyed E (fs_glob E (glob_pattern Demo.fresh))) [])
    !! "svcX(1)_callY(z)" = Some (Demo.dir "a.cache").
Proof.
  intros E.
  apply (index_of_distinct_names E Demo.fresh _
           (snd (_name_source_map E Demo.fresh)) eq_refl).
  - vm_compute. reflexivity.
  - intros K p q Hp Hq (cp & lp & Hlp & _) (cq & lq & Hlq & _).
    vm_compute in Hp, Hq.
    destruct Hp as [<-|[<-|[<-|[<-|[]]]]]; try discriminate Hlp;
      destruct Hq as [<-|[<-|[<-|[<-|[]]]]]; try discriminate Hlq; reflexivity.
  - split.
    + vm_compute. right. left. reflexivity.
    + eexists. eexists. split; reflexivity.
Defined.
